(** * Takitaro: layered SVG export with stroke draw-on animation

    A shallow embedding of [takitaro.py] (an Inkscape effect extension) and
    the properties of its export planner, timeline allocation, path length
    selection, style-tag upsert and export driver. *)

From Stdlib Require Import ZArith QArith Qround Qminmax List String Ascii Lia Lqa Permutation.
From stdpp Require Import base option list gmap strings.

From Stdlib Require Import DecimalString.

Set Warnings "-register-all".
Local Open Scope string_scope.
Local Open Scope list_scope.

(** ** Exceptions and results *)

(** The Python exceptions the modelled code can raise. *)
Inductive exn : Type :=
  | ZeroDivisionError
  | ValueError
  | KeyError
  | AttributeError
  | IndexError.

Inductive result (A : Type) : Type :=
  | Ok (a : A)
  | Raise (e : exn).
Arguments Ok {A} a.
Arguments Raise {A} e.

Definition rbind {A B : Type} (r : result A) (k : A -> result B) : result B :=
  match r with
  | Ok a => k a
  | Raise e => Raise e
  end.

Notation "'do' x '<-' r ';' k" := (rbind r (fun x => k))
  (at level 10, x name, r at level 100, k at level 200).

Definition succeeds {A : Type} (r : result A) : Prop := exists a, r = Ok a.

(** A list comprehension whose item expression may raise. *)
Fixpoint comprehension {A B : Type} (f : A -> result B) (xs : list A)
    : result (list B) :=
  match xs with
  | [] => Ok []
  | x :: rest =>
      do y <- f x;
      do ys <- comprehension f rest;
      Ok (y :: ys)
  end.

(** ** Python numbers

    [csplength] yields floats, but its running total starts at the integer
    [0]; [start_percent] starts at the integer [0] and the clamp puts the
    integer [100].  Both kinds are kept apart because they print
    differently.  A float is modelled by the rational it denotes, kept in
    lowest terms so that equal numbers are equal terms. *)
Module Num.

Inductive pynum : Type :=
  | PInt (z : Z)
  | PFloat (q : Q).

Definition val (n : pynum) : Q :=
  match n with
  | PInt z => inject_Z z
  | PFloat q => q
  end.

(** [a + b] *)
Definition add (a b : pynum) : pynum :=
  match a, b with
  | PInt x, PInt y => PInt (x + y)
  | _, _ => PFloat (Qred (val a + val b))
  end.

(** [a * b] *)
Definition mul (a b : pynum) : pynum :=
  match a, b with
  | PInt x, PInt y => PInt (x * y)
  | _, _ => PFloat (Qred (val a * val b))
  end.

Definition is_zero (a : pynum) : bool :=
  match Qcompare (val a) 0 with Eq => true | _ => false end.

(** [a / b]: true division, always a float, raising on a zero divisor. *)
Definition truediv (a b : pynum) : result pynum :=
  if is_zero b then Raise ZeroDivisionError
  else Ok (PFloat (Qred (val a / val b))).

(** Nearest integer, ties to the even one. *)
Definition round_half_even (q : Q) : Z :=
  let f := Qfloor q in
  match Qcompare (q - inject_Z f) (1 # 2) with
  | Lt => f
  | Gt => (f + 1)%Z
  | Eq => if Z.even f then f else (f + 1)%Z
  end.

Definition round3 (q : Q) : Q :=
  Qred (inject_Z (round_half_even (q * 1000)) / 1000).

(** [round(a, 3)]: an integer is returned as it is. *)
Definition round_3 (a : pynum) : pynum :=
  match a with
  | PInt z => PInt z
  | PFloat q => PFloat (round3 q)
  end.

(** [min(a, b)]: the first argument unless the second is strictly less. *)
Definition min (a b : pynum) : pynum :=
  match Qcompare (val b) (val a) with
  | Lt => b
  | _ => a
  end.

(** [max(a, b)] inside [max(iterable)]: the first maximal item is kept. *)
Definition max (a b : pynum) : pynum :=
  match Qcompare (val a) (val b) with
  | Lt => b
  | _ => a
  end.

(** [sum(xs)], which starts from the integer [0]. *)
Definition sum (xs : list pynum) : pynum := fold_left add xs (PInt 0).

(** [max(iterable)] of a non-empty iterable. *)
Definition max_list (x : pynum) (xs : list pynum) : pynum := fold_left max xs x.

End Num.
Import Num.

(** ** Timeline allocation: the loop of [add_animation]

    The loop is written once, over the action run for each path: the
    extension runs [animate_path]; the allocation records the pair
    [(start_percent, end_percent)] handed to it. *)
Section TimelineLoop.
Context {S : Type}.
Variable act : nat -> pynum -> pynum -> pynum -> S -> result S.
Variable total_length : pynum.

Fixpoint timeline_loop (index : nat) (lengths : list pynum)
    (end_percent : pynum) (s : S) : result S :=
  match lengths with
  | [] => Ok s
  | length :: rest =>
      let start_percent := end_percent in
      do share <- truediv length total_length;
      let end_percent := add end_percent (round_3 (mul share (PInt 100))) in
      let end_percent := min end_percent (PInt 100) in
      do s <- act index start_percent end_percent length s;
      timeline_loop (Datatypes.S index) rest end_percent s
  end.
End TimelineLoop.

Definition record_pair (index : nat) (start_percent end_percent length : pynum)
    (acc : list (pynum * pynum)) : result (list (pynum * pynum)) :=
  Ok (acc ++ [(start_percent, end_percent)]).

(** The [(start_percent, end_percent)] pairs of a layer's paths, in order. *)
Definition allocation (lengths : list pynum) : result (list (pynum * pynum)) :=
  timeline_loop record_pair (sum lengths) 0 lengths (PInt 0) [].

(** ** Path length

    [inkex.bezier.csplength]: from the Bezier segment lengths of each
    sub-path it returns them grouped by sub-path, and their running total
    (which starts from the integer [0]). *)
Definition csplength (segments : list (list Q)) : list (list pynum) * pynum :=
  let lengths := map (map PFloat) segments in
  (lengths, fold_left add (concat lengths) (PInt 0)).

(** The body of [get_animatable_length] after the call of [csplength]. *)
Definition animatable_length (measured : list (list pynum) * pynum) : pynum :=
  let '(subpath_lengths, path_length) := measured in
  if (1 <? length subpath_lengths)%nat then
    match map sum subpath_lengths with
    | first :: others => max_list first others
    | [] => path_length
    end
  else path_length.

(** ** The document tree

    An lxml element: its identity ([nid], the object it is, which no
    other element of the document shares), its tag in Clark notation
    ([{namespace}local], or [local] alone when the element has no
    namespace), its attributes in order, its text, its children. *)
Inductive element : Type :=
  Element {
    nid : nat;
    tag : string;
    attrib : list (string * string);
    text : option string;
    children : list element
  }.

Definition svg_ns : string := "http://www.w3.org/2000/svg".
Definition inkscape_ns : string := "http://www.inkscape.org/namespaces/inkscape".

(** [inkex.addNS(local, prefix)], with the namespace of the prefix. *)
Definition addNS (local ns : string) : string := ("{" ++ ns ++ "}" ++ local)%string.

(** [attrib.get(key)] *)
Fixpoint get (key : string) (attrs : list (string * string)) : option string :=
  match attrs with
  | [] => None
  | (k, v) :: rest => if String.eqb k key then Some v else get key rest
  end.

(** [attrib[key] = value]: in place when the key is there, else at the end. *)
Fixpoint set (key value : string) (attrs : list (string * string))
    : list (string * string) :=
  match attrs with
  | [] => [(key, value)]
  | (k, v) :: rest =>
      if String.eqb k key then (k, value) :: rest
      else (k, v) :: set key value rest
  end.

Definition set_attr (key value : string) (e : element) : element :=
  Element (nid e) (tag e) (set key value (attrib e)) (text e) (children e).

(** The element and its descendants, in document order. *)
Fixpoint descendants_or_self (e : element) : list element :=
  e :: flat_map descendants_or_self (children e).

(** The descendants alone, in document order. *)
Definition descendants (e : element) : list element :=
  flat_map descendants_or_self (children e).

(** An in-place change of the element whose identity is [n]. *)
Fixpoint update_node (n : nat) (f : element -> element) (e : element) : element :=
  let e' := Element (nid e) (tag e) (attrib e) (text e)
                    (map (update_node n f) (children e)) in
  if Nat.eqb (nid e) n then f e' else e'.

(** An identity no element of the tree has yet. *)
Definition fresh_nid (root : element) : nat :=
  Datatypes.S (fold_right Nat.max 0%nat (map nid (descendants_or_self root))).

(** [self.svg.getElementById(eid)]: the first element carrying that id. *)
Definition getElementById (eid : string) (root : element) : option element :=
  find (fun e => bool_decide (get "id" (attrib e) = Some eid))
       (descendants_or_self root).

(** [xpath('//svg:g[@inkscape:groupmode="layer"]')] *)
Definition xpath_layers (root : element) : list element :=
  filter (fun e => tag e = addNS "g" svg_ns
                   /\ get (addNS "groupmode" inkscape_ns) (attrib e) = Some "layer")
         (descendants_or_self root).

(** [xpath("//svg:style")] *)
Definition xpath_styles (root : element) : list element :=
  filter (fun e => tag e = addNS "style" svg_ns) (descendants_or_self root).

(** [get_all_paths_in_layer]: [xpath(".//svg:path")] from the layer. *)
Definition get_all_paths_in_layer (layer_element : element) : list element :=
  filter (fun e => tag e = addNS "path" svg_ns) (descendants layer_element).

(** [root.remove(old)]: the child that is [old] is taken out; lxml raises
    [ValueError] when [old] is not a child of [root]. *)
Definition remove (old : element) (root : element) : result element :=
  if existsb (fun c => Nat.eqb (nid c) (nid old)) (children root) then
    Ok (Element (nid root) (tag root) (attrib root) (text root)
          (filter (fun c => nid c <> nid old) (children root)))
  else Raise ValueError.

(** [etree.SubElement(root, tag, attrib)] followed by the assignment of its
    text: a new last child.  The tag is taken as given: no namespace is
    added to it. *)
Definition SubElement (root : element) (new_tag : string)
    (attrs : list (string * string)) (content : string) : element :=
  Element (nid root) (tag root) (attrib root) (text root)
    (children root ++ [Element (fresh_nid root) new_tag attrs (Some content) []]).

(** ** Layers and export steps *)

Record Layer : Type := { id : string; label : string }.

Record Export : Type := { visible_layers : gset string; file_name : string }.

(** [enumerate(xs)] *)
Definition enumerate {A : Type} (xs : list A) : list (nat * A) :=
  combine (seq 0 (length xs)) xs.

Definition lower_ascii (c : ascii) : ascii :=
  let n := nat_of_ascii c in
  if ((65 <=? n) && (n <=? 90))%nat then ascii_of_nat (n + 32) else c.

(** [str.lower()], on the ASCII letters. *)
Fixpoint lower (s : string) : string :=
  match s with
  | EmptyString => EmptyString
  | String c rest => String (lower_ascii c) (lower rest)
  end.

(** [str(n)] of an integer. *)
Definition str_int (z : Z) : string := NilZero.string_of_int (Z.to_int z).

Fixpoint zeros (n : nat) : string :=
  match n with
  | O => ""
  | Datatypes.S k => ("0" ++ zeros k)%string
  end.

(** [f"{n:03d}"]: decimal, padded with zeros on the left up to three digits. *)
Definition format_03d (n : nat) : string :=
  let digits := NilZero.string_of_uint (Nat.to_uint n) in
  (zeros (3 - String.length digits) ++ digits)%string.

(** [get_layer_list] *)
Definition get_layer_list (document : element) : result (list Layer) :=
  let svg_layers := xpath_layers document in
  comprehension
    (fun layer =>
       match get "id" (attrib layer) with
       | Some i =>
           Ok {| id := i;
                 label := lower (default "" (get (addNS "label" inkscape_ns)
                                                 (attrib layer))) |}
       | None => Raise KeyError
       end)
    (rev svg_layers).

(** The state of a run: the live document ([self.document], whose root is
    [self.root] and [self.svg]), the messages sent to the user and the
    files written so far (name below the output directory, and content). *)
Record run : Type := {
  document : element;
  messages : list string;
  written : list (string * element)
}.

(** A [for] loop over a list whose body may raise. *)
Fixpoint for_each {A S : Type} (body : A -> S -> result S) (xs : list A) (s : S)
    : result S :=
  match xs with
  | [] => Ok s
  | x :: rest => do s <- body x s; for_each body rest s
  end.

(** ** The extension

    What the host and the Python run time supply: the command line options,
    the Bezier segment lengths of a path element (its sub-paths in order),
    [repr] of a float, and the order in which this run iterates over a set
    of strings. *)
Section Extension.
Variable include_background : bool.
Variable enumerate_option : bool.
Variable animation_style : string.
Variable segment_lengths : element -> list (list Q).
Variable float_repr : Q -> string.
Variable set_iteration : gset string -> list string.

(** [str(x)] inside an f-string. *)
Definition str (x : pynum) : string :=
  match x with
  | PInt z => str_int z
  | PFloat q => float_repr q
  end.

(** [str(x)] of the result of [element.get(...)]. *)
Definition str_opt (x : option string) : string := default "None" x.

(** [get_export_list] *)
Definition get_export_list (layer_list : list Layer) : list Export :=
  flat_map
    (fun '(counter, layer) =>
       if (counter =? 0)%nat && negb include_background then []
       else
         let visible_layers : gset string :=
           list_to_set
             (map (fun '(idx, other_layer) => id other_layer)
                (filter (fun '(idx, other_layer) => (idx <= counter)%nat)
                   (enumerate layer_list))) in
         let layer_name :=
           if enumerate_option
           then (format_03d (counter + 1) ++ "_" ++ label layer)%string
           else label layer in
         [ {| visible_layers := visible_layers; file_name := layer_name |} ])
    (enumerate layer_list).

(** [get_animatable_length] *)
Definition get_animatable_length (elem : element) : pynum :=
  animatable_length (csplength (segment_lengths elem)).

(** [add_or_replace_style_tag], on the root of the live document. *)
Definition add_or_replace_style_tag (tag_id content : string) (root : element)
    : result element :=
  let style_tags := xpath_styles root in
  let old_tag :=
    find (fun t => bool_decide (get "id" (attrib t) = Some tag_id)) style_tags in
  do root <- match old_tag with
             | Some old => remove old root
             | None => Ok root
             end;
  Ok (SubElement root "style" [("id", tag_id)] content).

Definition nl : string := String (ascii_of_nat 10) "".

(** The text [animate_path] builds for one path. *)
Definition path_style_content (path_id : string)
    (start_percent end_percent length start_length end_length : pynum) : string :=
  (nl ++
  "        #" ++ path_id ++ " {" ++ nl ++
  "          animation-name: " ++ path_id ++ ";" ++ nl ++
  "          stroke-dasharray: " ++ str length ++ " !important;" ++ nl ++
  "        }" ++ nl ++
  "        @keyframes " ++ path_id ++ " {" ++ nl ++
  "          0%, " ++ str start_percent ++ "% {stroke-dashoffset: "
    ++ str start_length ++ ";}" ++ nl ++
  "          " ++ str end_percent ++ "%, 100% {stroke-dashoffset: "
    ++ str end_length ++ ";}" ++ nl ++
  "        }" ++ nl)%string.

(** [animate_path] *)
Definition animate_path (elem : element)
    (start_percent end_percent length start_length end_length : pynum)
    (anim_id : string) (root : element) : result element :=
  let path_id := str_opt (get "id" (attrib elem)) in
  do root <- add_or_replace_style_tag ("pathanim_" ++ path_id)%string
               (path_style_content path_id start_percent end_percent length
                  start_length end_length) root;
  Ok (update_node (nid elem) (set_attr "class" anim_id) root).

(** The text of the rule shared by the paths of one step. *)
Definition animation_style_content (anim_id : string) : string :=
  (nl ++
  "        ." ++ anim_id ++ " {" ++ nl ++
  "          animation-duration: 1s;" ++ nl ++
  "          animation-timing-function: " ++ animation_style ++ ";" ++ nl ++
  "          animation-delay: 0s;" ++ nl ++
  "          animation-iteration-count: 1;" ++ nl ++
  "          animation-fill-mode: forwards;" ++ nl ++
  "          }" ++ nl)%string.

Definition no_paths_message : string :=
  "Please convert all objects to paths before running this extension.".

(** [add_animation] *)
Definition add_animation (to_animate : list element) (anim_id : string)
    (r : run) : result run :=
  let lengths :=
    map get_animatable_length
        (filter (fun e => tag e = addNS "path" svg_ns) to_animate) in
  match lengths with
  | [] =>
      Ok {| document := document r;
            messages := messages r ++ [no_paths_message];
            written := written r |}
  | _ =>
      let total_length := sum lengths in
      do root <-
        timeline_loop
          (fun index start_percent end_percent length root =>
             match to_animate !! index with
             | Some elem =>
                 animate_path elem start_percent end_percent length
                   length (PInt 0) anim_id root
             | None => Raise IndexError
             end)
          total_length 0 lengths (PInt 0) (document r);
      do root <- add_or_replace_style_tag anim_id
                   (animation_style_content anim_id) root;
      Ok {| document := root; messages := messages r; written := written r |}
  end.

Definition display (visible : bool) : string :=
  if visible then "display:inline" else "display:none".

(** [export_to_svg]: the deep copy is the value of the live document; the
    later changes go to the copy alone. *)
Definition export_to_svg (export_item : Export) (r : run) : result run :=
  let copy := document r in
  let svg_layers := xpath_layers copy in
  do copy <-
    for_each
      (fun layer copy =>
         match get "id" (attrib layer) with
         | Some i =>
             Ok (update_node (nid layer)
                   (set_attr "style"
                      (display (bool_decide (i ∈ visible_layers export_item))))
                   copy)
         | None => Raise KeyError
         end)
      svg_layers copy;
  let output_file := (file_name export_item ++ ".svg")%string in
  Ok {| document := document r;
        messages := messages r;
        written := written r ++ [(output_file, copy)] |}.

(** The inner loop of [effect]: the style of every layer of the live
    document, by the visible set of the export item. *)
Definition set_layer_styles (layer_list : list Layer) (export_item : Export)
    (root : element) : result element :=
  for_each
    (fun layer root =>
       match getElementById (id layer) root with
       | Some layer_tag =>
           Ok (update_node (nid layer_tag)
                 (set_attr "style"
                    (display (bool_decide (id layer ∈ visible_layers export_item))))
                 root)
       | None => Raise AttributeError
       end)
    layer_list root.

(** The body of the outer loop of [effect] for one export item. *)
Definition export_step (layer_list : list Layer) (idx : nat)
    (export_item : Export) (r : run) : result run :=
  do root <- set_layer_styles layer_list export_item (document r);
  do top_layer_id <-
    match last (set_iteration (visible_layers export_item)) with
    | Some i => Ok i
    | None => Raise IndexError
    end;
  do top_layer_tag <-
    match getElementById top_layer_id root with
    | Some t => Ok t
    | None => Raise AttributeError
    end;
  let to_animate := get_all_paths_in_layer top_layer_tag in
  do r <- add_animation to_animate ("anim_" ++ str_int (Z.of_nat idx))%string
            {| document := root; messages := messages r; written := written r |};
  export_to_svg export_item r.

(** [effect], from the parsed document. *)
Definition effect (doc : element) : result run :=
  do layer_list <- get_layer_list doc;
  let export_list := get_export_list layer_list in
  do r <-
    for_each (fun '(idx, export_item) => export_step layer_list idx export_item)
      (enumerate export_list)
      {| document := doc; messages := []; written := [] |};
  Ok {| document := document r;
        messages := messages r ++
          [("Processed " ++ str_int (Z.of_nat (length export_list))
            ++ " export layers.")%string];
        written := written r |}.
End Extension.

(** ** Specification vocabulary *)

(** The value of [end_percent] after a path of length [l], from the value
    [e] before it, when the total length [total] is not zero. *)
Definition next_end (total e l : pynum) : pynum :=
  min (add e (round_3 (mul (PFloat (Qred (val l / val total))) (PInt 100))))
      (PInt 100).

(** The pairs the loop hands out from [end_percent = e] on. *)
Fixpoint pairs (total e : pynum) (lengths : list pynum) : list (pynum * pynum) :=
  match lengths with
  | [] => []
  | l :: rest => (e, next_end total e l) :: pairs total (next_end total e l) rest
  end.

(** Each pair starts where the one before ended ([e] for the first), ends
    no earlier than it started, and ends at 100 at most. *)
Fixpoint chained (e : pynum) (alloc : list (pynum * pynum)) : Prop :=
  match alloc with
  | [] => True
  | (s, e') :: rest =>
      s = e /\ (val e <= val e')%Q /\ (val e' <= 100)%Q /\ chained e' rest
  end.

(** The export step of the layer at index [counter]. *)
Definition export_of (enumerate_option : bool) (layer_list : list Layer)
    (counter : nat) (layer : Layer) : Export :=
  {| visible_layers := list_to_set (map id (take (Datatypes.S counter) layer_list));
     file_name :=
       if enumerate_option
       then (format_03d (counter + 1) ++ "_" ++ label layer)%string
       else label layer |}.

(** The index in the layer list of the layer behind the [k]-th step. *)
Definition source_index (include_background : bool) (k : nat) : nat :=
  if include_background then k else Datatypes.S k.

(** A style element, whether parsed from an SVG file (in the SVG
    namespace) or created by [SubElement] (in none). *)
Definition is_style (e : element) : bool :=
  bool_decide (tag e = "style") || bool_decide (tag e = addNS "style" svg_ns).

(** The style rules of a document: id and text of each style element. *)
Definition style_rules (root : element) : list (option string * option string) :=
  map (fun e => (get "id" (attrib e), text e))
      (filter (fun e => is_style e = true) (descendants_or_self root)).

(** The style elements of a document that carry the id [tag_id]. *)
Definition rules_with_id (tag_id : string) (root : element) : list element :=
  filter (fun e => is_style e = true /\ get "id" (attrib e) = Some tag_id)
         (descendants_or_self root).

Definition is_space (c : ascii) : bool :=
  Ascii.eqb c " " || Ascii.eqb c (ascii_of_nat 10).

Fixpoint lstrip (s : string) : string :=
  match s with
  | EmptyString => EmptyString
  | String c rest => if is_space c then lstrip rest else s
  end.

Fixpoint before_brace (s : string) : string :=
  match s with
  | EmptyString => EmptyString
  | String c rest => if Ascii.eqb c "{" then EmptyString else String c (before_brace rest)
  end.

(** The selector of the first rule of a style sheet text. *)
Definition first_selector (css : string) : string := lstrip (before_brace css).

(** A CSS class selector starts with a dot, an id selector with a hash. *)
Definition is_class_selector (selector : string) : bool := String.prefix "." selector.
Definition is_id_selector (selector : string) : bool := String.prefix "#" selector.

(** The path elements of a document that carry the class [anim_id]. *)
Definition paths_with_class (anim_id : string) (root : element) : list (option string) :=
  map (fun e => get "id" (attrib e))
      (filter (fun e => tag e = addNS "path" svg_ns
                        /\ get "class" (attrib e) = Some anim_id)
              (descendants_or_self root)).

(** ** Sample inputs *)

Definition sample_path (n : nat) (path_id : string) : element :=
  Element n (addNS "path" svg_ns) [("id", path_id)] None [].

Definition sample_layer (n : nat) (layer_id layer_label : string)
    (content : list element) : element :=
  Element n (addNS "g" svg_ns)
    [("id", layer_id);
     (addNS "groupmode" inkscape_ns, "layer");
     (addNS "label" inkscape_ns, layer_label)]
    None content.

Definition sample_svg (content : list element) : element :=
  Element 0 (addNS "svg" svg_ns) [] None content.

(** Every path is a single point: one sub-path without segments. *)
Definition point_geometry (e : element) : list (list Q) := [[]].

(** Every path is one sub-path of two segments, of lengths 1 and 2. *)
Definition two_segment_geometry (e : element) : list (list Q) := [[1%Q; 2%Q]].

(** A float printer for the samples: the integer part alone. *)
Definition sample_float_repr (q : Q) : string := str_int (Qfloor q).

Definition empty_run (doc : element) : run :=
  {| document := doc; messages := []; written := [] |}.

(** Two layers, the background [L1] below [L2], one path in each; the
    document lists the upper layer first. *)
Definition two_layer_document : element :=
  sample_svg
    [ sample_layer 1 "L2" "Sky" [sample_path 2 "p2"];
      sample_layer 3 "L1" "Bg" [sample_path 4 "p1"] ].

(** The same with a rectangle instead of the path of the upper layer. *)
Definition empty_top_document : element :=
  sample_svg
    [ sample_layer 1 "L2" "Sky" [Element 2 (addNS "rect" svg_ns) [("id", "r2")] None []];
      sample_layer 3 "L1" "Bg" [sample_path 4 "p1"] ].

Definition sample_layers : list Layer :=
  [ {| id := "L1"; label := "bg" |}; {| id := "L2"; label := "sky" |} ].

(** The value of a result, or a default when it is an exception. *)
Definition value_or {A : Type} (d : A) (r : result A) : A :=
  match r with
  | Ok a => a
  | Raise _ => d
  end.

(** Two iteration orders of a set of strings. *)
Definition ascending_iteration (s : gset string) : list string := elements s.
Definition descending_iteration (s : gset string) : list string := rev (elements s).

(** ** Vocabulary of the further properties *)


Definition has_id (e : element) : Prop := is_Some (get "id" (attrib e)).

(** The sum of the values of a list of numbers. *)
Definition total_val (xs : list pynum) : Q :=
  fold_right (fun x acc => (val x + acc)%Q) 0%Q xs.

(** Identity, tag and attributes of an element, without its subtree. *)
Definition view (e : element) : nat * string * list (string * string) :=
  (nid e, tag e, attrib e).

(** The attributes of the element [m] after [export_to_svg] has gone
    through the layer groups [layers] of the copy. *)
Definition restyled (visible : gset string) (layers : list element) (m : nat)
    (attrs : list (string * string)) : list (string * string) :=
  fold_left
    (fun a layer =>
       if Nat.eqb m (nid layer)
       then set "style"
              (display (bool_decide (default "" (get "id" (attrib layer)) ∈ visible))) a
       else a)
    layers attrs.



(** What [element.set(key, value)] on the element [n] does to a view. *)
Definition set_in_view (n : nat) (key value : string)
    (v : nat * string * list (string * string))
    : nat * string * list (string * string) :=
  let '(m, t, a) := v in (m, t, if Nat.eqb m n then set key value a else a).

(** What the loop of [export_to_svg] does to a view. *)
Definition restyle_view (visible : gset string) (layers : list element)
    (v : nat * string * list (string * string))
    : nat * string * list (string * string) :=
  let '(m, t, a) := v in (m, t, restyled visible layers m a).

(** The first view that carries the id [eid]. *)
Definition first_with_id (eid : string)
    (views : list (nat * string * list (string * string)))
    : option (nat * string * list (string * string)) :=
  find (fun v => bool_decide (get "id" (snd v) = Some eid)) views.

(** Every layer of [layers] is found by its id and is styled by the
    visible set. *)
Definition styled_by (visible : gset string) (layers : list Layer)
    (views : list (nat * string * list (string * string))) : Prop :=
  Forall
    (fun layer =>
       exists w, first_with_id (id layer) views = Some w
                 /\ get "style" (snd w)
                    = Some (display (bool_decide (id layer ∈ visible))))
    layers.

(** * Properties *)

(** ** Numbers *)

Lemma val_add (a b : pynum) : (val (add a b) == val a + val b)%Q.
Proof.
  destruct a as [x|p], b as [y|q]; simpl; rewrite ?Qred_correct;
    try reflexivity; try (now rewrite inject_Z_plus).
Qed.

Lemma val_mul (a b : pynum) : (val (mul a b) == val a * val b)%Q.
Proof.
  destruct a as [x|p], b as [y|q]; simpl; rewrite ?Qred_correct;
    try reflexivity; try (now rewrite inject_Z_mult).
Qed.

Lemma is_zero_spec (a : pynum) : is_zero a = true <-> (val a == 0)%Q.
Proof.
  unfold is_zero.
  destruct (Qcompare_spec (val a) 0) as [E|L|G]; split; intros H;
    try discriminate; auto.
  - rewrite H in L. now apply Qlt_irrefl in L.
  - rewrite H in G. now apply Qlt_irrefl in G.
Qed.

Lemma truediv_ok (a b : pynum) :
  ~ (val b == 0)%Q -> truediv a b = Ok (PFloat (Qred (val a / val b))).
Proof.
  intros Hb. unfold truediv.
  destruct (is_zero b) eqn:E; [|reflexivity].
  apply is_zero_spec in E. contradiction.
Qed.

Lemma truediv_zero (a b : pynum) :
  (val b == 0)%Q -> truediv a b = Raise ZeroDivisionError.
Proof.
  intros Hb. unfold truediv.
  apply is_zero_spec in Hb. now rewrite Hb.
Qed.






Lemma val_fold_add_nonneg (xs : list pynum) (a : pynum) :
  Forall (fun l => (0 <= val l)%Q) xs -> (val a <= val (fold_left add xs a))%Q.
Proof.
  revert a. induction xs as [|x xs IH]; intros a Hxs; simpl.
  - apply Qle_refl.
  - inversion Hxs as [|? ? Hx Hrest]; subst.
    eapply Qle_trans; [|apply IH; assumption].
    rewrite val_add.
    rewrite <- (Qplus_0_r (val a)) at 1.
    now apply Qplus_le_r.
Qed.

(** ** Timeline allocation *)




Lemma timeline_loop_record (total : pynum) (lengths : list pynum) :
  ~ (val total == 0)%Q ->
  forall index e acc,
    timeline_loop record_pair total index lengths e acc
    = Ok (acc ++ pairs total e lengths).
Proof.
  intros HT. induction lengths as [|l rest IH]; intros index e acc; simpl.
  - now rewrite app_nil_r.
  - rewrite truediv_ok by assumption. simpl.
    rewrite IH. fold (next_end total e l).
    now rewrite <- app_assoc.
Qed.

Lemma timeline_loop_zero {S : Type} act (total : pynum) :
  (val total == 0)%Q ->
  forall index l rest e (s : S),
    timeline_loop act total index (l :: rest) e s = Raise ZeroDivisionError.
Proof.
  intros HT index l rest e s. simpl. now rewrite truediv_zero.
Qed.

Lemma pairs_length (total e : pynum) (lengths : list pynum) :
  length (pairs total e lengths) = length lengths.
Proof.
  revert e. induction lengths as [|l rest IH]; intros e; simpl; [|rewrite IH]; reflexivity.
Qed.



Lemma chained_first (e0 : pynum) (alloc : list (pynum * pynum)) s e :
  chained e0 alloc -> alloc !! 0%nat = Some (s, e) -> s = e0.
Proof.
  destruct alloc as [|[s0 e1] rest]; simpl; intros H E; [discriminate|].
  inversion E; subst. tauto.
Qed.





(** ** Division by the total length *)

Lemma filter_all {A : Type} (P : A -> Prop) `{forall x, Decision (P x)} (xs : list A) :
  Forall P xs -> filter P xs = xs.
Proof.
  induction 1 as [|x xs Hx _ IH]; [reflexivity|].
  rewrite filter_cons. destruct (decide (P x)); [|contradiction].
  now rewrite IH.
Qed.

Lemma val_sum_nonneg (xs : list pynum) :
  Forall (fun l => (0 <= val l)%Q) xs -> (0 <= val (sum xs))%Q.
Proof. intros H. apply (val_fold_add_nonneg xs (PInt 0) H). Qed.

Lemma timeline_loop_no_zero_division {S : Type}
    (act : nat -> pynum -> pynum -> pynum -> S -> result S) (total : pynum) :
  ~ (val total == 0)%Q ->
  (forall i s e l st, act i s e l st <> Raise ZeroDivisionError) ->
  forall lengths index e st,
    timeline_loop act total index lengths e st <> Raise ZeroDivisionError.
Proof.
  intros HT Hact. induction lengths as [|l rest IH]; intros index e st; simpl.
  - discriminate.
  - rewrite truediv_ok by assumption. simpl.
    match goal with |- context [act ?i ?s ?e' ?l' ?st'] =>
      pose proof (Hact i s e' l' st') as Ha; destruct (act i s e' l' st') as [st1|ex]
    end; simpl.
    + apply IH.
    + intros E. apply Ha. exact E.
Qed.

Section ExtensionFacts.
Variable animation_style : string.
Variable segment_lengths : element -> list (list Q).
Variable float_repr : Q -> string.

Lemma add_or_replace_style_tag_no_zero_division tag_id content root :
  add_or_replace_style_tag tag_id content root <> Raise ZeroDivisionError.
Proof.
  unfold add_or_replace_style_tag.
  destruct (find _ _) as [old|]; simpl; [|discriminate].
  unfold remove. destruct (existsb _ _); simpl; discriminate.
Qed.

Lemma animate_path_no_zero_division elem s e l sl el anim_id root :
  animate_path float_repr elem s e l sl el anim_id root
  <> Raise ZeroDivisionError.
Proof.
  unfold animate_path.
  match goal with |- context [add_or_replace_style_tag ?a ?b ?c] =>
    pose proof (add_or_replace_style_tag_no_zero_division a b c) as H;
    destruct (add_or_replace_style_tag a b c)
  end; simpl; [discriminate|exact H].
Qed.

Lemma add_animation_zero_total to_animate anim_id r :
  Forall (fun e => tag e = addNS "path" svg_ns) to_animate ->
  to_animate <> [] ->
  (val (sum (map (get_animatable_length segment_lengths) to_animate)) == 0)%Q ->
  add_animation animation_style segment_lengths float_repr to_animate anim_id r
  = Raise ZeroDivisionError.
Proof.
  intros Htag Hne Hz. unfold add_animation.
  rewrite (filter_all _ _ Htag).
  destruct to_animate as [|p ps]; [contradiction|].
  cbn [map]. rewrite timeline_loop_zero; [reflexivity|exact Hz].
Qed.

Lemma add_animation_nonzero_total to_animate anim_id r :
  Forall (fun e => tag e = addNS "path" svg_ns) to_animate ->
  ~ (val (sum (map (get_animatable_length segment_lengths) to_animate)) == 0)%Q ->
  add_animation animation_style segment_lengths float_repr to_animate anim_id r
  <> Raise ZeroDivisionError.
Proof.
  intros Htag Hnz. unfold add_animation.
  rewrite (filter_all _ _ Htag).
  destruct (map _ to_animate) as [|l ls] eqn:El; [discriminate|].
  destruct (timeline_loop _ _ _ _ _ _) as [root|ex] eqn:Eloop; simpl.
  - match goal with |- context [add_or_replace_style_tag ?a ?b ?c] =>
      pose proof (add_or_replace_style_tag_no_zero_division a b c) as H;
      destruct (add_or_replace_style_tag a b c)
    end; simpl; [discriminate|].
    intros E. apply H. now inversion E.
  - intros E. inversion E; subst. revert Eloop.
    apply timeline_loop_no_zero_division; [exact Hnz|].
    intros i s e0 l0 st.
    destruct (to_animate !! i);
      [apply animate_path_no_zero_division | discriminate].
Qed.
End ExtensionFacts.

(** C10. [add_animation] divides by the total of the measured lengths
    without a guard.  For a layer with at least one path and non-negative
    measured lengths: a zero total raises [ZeroDivisionError], so the call
    succeeds only when the total is positive, and with a positive total the
    division does not raise; a single path that is one point is such a
    zero-total input. *)
Theorem C10_total_length_precondition
    (animation_style : string) (segment_lengths : element -> list (list Q))
    (float_repr : Q -> string) (to_animate : list element) (anim_id : string)
    (r : run) :
  let lengths := map (get_animatable_length segment_lengths) to_animate in
  let outcome :=
    add_animation animation_style segment_lengths float_repr to_animate anim_id r in
  Forall (fun e => tag e = addNS "path" svg_ns) to_animate ->
  to_animate <> [] ->
  Forall (fun l => (0 <= val l)%Q) lengths ->
  ((val (sum lengths) == 0)%Q -> outcome = Raise ZeroDivisionError)
  /\ (succeeds outcome -> (0 < val (sum lengths))%Q)
  /\ ((0 < val (sum lengths))%Q -> outcome <> Raise ZeroDivisionError)
  /\ add_animation animation_style point_geometry float_repr
       [sample_path 1 "p"] anim_id r
     = Raise ZeroDivisionError.
Proof.
  intros lengths outcome Htag Hne Hnonneg.
  assert (Hzero : (val (sum lengths) == 0)%Q -> outcome = Raise ZeroDivisionError).
  { intros Hz. now apply add_animation_zero_total. }
  split; [exact Hzero|]. split; [|split].
  - intros [r' Hok].
    destruct (Qlt_le_dec 0 (val (sum lengths))) as [Hlt|Hle]; [exact Hlt|].
    assert (Hz : (val (sum lengths) == 0)%Q).
    { apply Qle_antisym; [exact Hle|]. now apply val_sum_nonneg. }
    rewrite (Hzero Hz) in Hok. discriminate.
  - intros Hpos. apply add_animation_nonzero_total; [exact Htag|].
    intros E. fold lengths in E. rewrite E in Hpos. now apply Qlt_irrefl in Hpos.
  - reflexivity.
Qed.

Lemma C10_total_length_precondition_witness :
  let outcome :=
    add_animation "ease" two_segment_geometry sample_float_repr
      [sample_path 1 "p"] "anim_0" (empty_run (sample_svg [sample_path 1 "p"])) in
  succeeds outcome /\ outcome <> Raise ZeroDivisionError.
Proof.
  pose proof (C10_total_length_precondition "ease" two_segment_geometry
                sample_float_repr [sample_path 1 "p"] "anim_0"
                (empty_run (sample_svg [sample_path 1 "p"]))) as H.
  cbv zeta in H.
  assert (Htag : Forall (fun e => tag e = addNS "path" svg_ns) [sample_path 1 "p"])
    by (repeat constructor).
  assert (Hne : [sample_path 1 "p"] <> []) by discriminate.
  assert (Hnonneg : Forall (fun l => (0 <= val l)%Q)
            (map (get_animatable_length two_segment_geometry) [sample_path 1 "p"]))
    by (repeat constructor; discriminate).
  destruct (H Htag Hne Hnonneg) as (_ & _ & Hsafe & _).
  split.
  - eexists. vm_compute. reflexivity.
  - apply Hsafe. reflexivity.
Defined.

(** ** Path length *)

Lemma val_max_l (a b : pynum) : (val a <= val (max a b))%Q.
Proof.
  unfold max. destruct (Qcompare_spec (val a) (val b)) as [E|L|G];
    try apply Qle_refl. now apply Qlt_le_weak.
Qed.

Lemma val_max_r (a b : pynum) : (val b <= val (max a b))%Q.
Proof.
  unfold max. destruct (Qcompare_spec (val a) (val b)) as [E|L|G].
  - rewrite E. apply Qle_refl.
  - apply Qle_refl.
  - now apply Qlt_le_weak.
Qed.

Lemma max_cases (a b : pynum) : max a b = a \/ max a b = b.
Proof. unfold max. destruct (Qcompare _ _); auto. Qed.

Lemma max_list_In (xs : list pynum) :
  forall x, In (max_list x xs) (x :: xs).
Proof.
  induction xs as [|y ys IH]; intros x; simpl.
  - now left.
  - destruct (IH (max x y)) as [E|H].
    + unfold max_list in *. simpl. rewrite <- E.
      destruct (max_cases x y) as [-> | ->]; auto.
    + auto.
Qed.

Lemma max_list_ge (xs : list pynum) :
  forall x, Forall (fun y => (val y <= val (max_list x xs))%Q) (x :: xs).
Proof.
  induction xs as [|y ys IH]; intros x.
  - repeat constructor. apply Qle_refl.
  - specialize (IH (max x y)).
    change (max_list x (y :: ys)) with (max_list (max x y) ys).
    inversion IH as [|? ? Hm Hrest]; subst.
    constructor; [|constructor]; auto.
    + eapply Qle_trans; [apply val_max_l|exact Hm].
    + eapply Qle_trans; [apply val_max_r|exact Hm].
Qed.

(** C3. The animatable length of a path element is the total arc length
    that [csplength] reports when the path has one sub-path, and the
    largest of the sub-path lengths (each the sum of its segments), not
    their sum, when it has several; sub-paths of lengths 3, 7 and 2 give
    7, not 12. *)
Theorem C3_animatable_length
    (segment_lengths : element -> list (list Q)) (elem : element) :
  let measured := csplength (segment_lengths elem) in
  let subpath_totals := map sum (fst measured) in
  let result := get_animatable_length segment_lengths elem in
  (length (segment_lengths elem) = 1%nat -> result = snd measured)
  /\ ((1 < length (segment_lengths elem))%nat ->
        In result subpath_totals
        /\ Forall (fun t => (val t <= val result)%Q) subpath_totals)
  /\ get_animatable_length (fun _ => [[3%Q]; [7%Q]; [2%Q]]) elem = PFloat 7
  /\ snd (csplength [[3%Q]; [7%Q]; [2%Q]]) = PFloat 12.
Proof.
  intros measured subpath_totals result.
  unfold result, get_animatable_length, animatable_length.
  subst subpath_totals measured. unfold csplength. cbn [fst snd].
  rewrite !length_map.
  split; [|split; [|split]].
  - intros ->. reflexivity.
  - intros Hlen.
    destruct (Nat.ltb_spec 1 (length (segment_lengths elem))) as [_|Hle]; [|lia].
    destruct (map sum (map (map PFloat) (segment_lengths elem)))
      as [|first others] eqn:E.
    + apply (f_equal (@length _)) in E. rewrite !length_map in E.
      simpl in E. lia.
    + split; [apply max_list_In | apply max_list_ge].
  - reflexivity.
  - reflexivity.
Qed.

Lemma C3_animatable_length_witness :
  let elem := sample_path 1 "p" in
  get_animatable_length two_segment_geometry elem
  = snd (csplength (two_segment_geometry elem))
  /\ In (get_animatable_length (fun _ => [[1%Q; 2%Q]; [5%Q]; [4%Q]]) elem)
        (map sum (fst (csplength [[1%Q; 2%Q]; [5%Q]; [4%Q]]))).
Proof.
  split.
  - apply (C3_animatable_length two_segment_geometry (sample_path 1 "p")).
    reflexivity.
  - apply (C3_animatable_length (fun _ => [[1%Q; 2%Q]; [5%Q]; [4%Q]])
             (sample_path 1 "p")).
    simpl. lia.
Defined.

(** ** The export planner *)

Lemma enumerate_cons {A : Type} (x : A) (xs : list A) :
  enumerate (x :: xs) = (0%nat, x) :: map (fun '(i, y) => (Datatypes.S i, y)) (enumerate xs).
Proof.
  unfold enumerate. simpl. f_equal.
  rewrite <- seq_shift.
  generalize (seq 0 (length xs)). intros ns. revert xs.
  induction ns as [|n ns IH]; intros [|y ys]; simpl; try reflexivity.
  now rewrite IH.
Qed.

Lemma enumerate_length {A : Type} (xs : list A) :
  length (enumerate xs) = length xs.
Proof.
  unfold enumerate. rewrite length_combine, length_seq. lia.
Qed.

Lemma enumerate_lookup {A : Type} (xs : list A) (i : nat) :
  enumerate xs !! i = (fun x => (i, x)) <$> xs !! i.
Proof.
  revert i. induction xs as [|x xs IH]; intros i.
  - now destruct i.
  - rewrite enumerate_cons. destruct i as [|i]; simpl; [reflexivity|].
    rewrite list_lookup_fmap, IH. now destruct (xs !! i).
Qed.

Lemma filter_shift_0 {A : Type} (es : list (nat * A)) :
  filter (fun '(idx, _) => (idx <= 0)%nat) (map (fun '(i, y) => (Datatypes.S i, y)) es) = [].
Proof.
  induction es as [|[i y] es IH]; [reflexivity|].
  cbn [map]. rewrite filter_cons.
  destruct (decide _) as [H|_]; [lia|exact IH].
Qed.

Lemma filter_shift_S {A : Type} (es : list (nat * A)) (c : nat) :
  filter (fun '(idx, _) => (idx <= Datatypes.S c)%nat)
         (map (fun '(i, y) => (Datatypes.S i, y)) es)
  = map (fun '(i, y) => (Datatypes.S i, y)) (filter (fun '(idx, _) => (idx <= c)%nat) es).
Proof.
  induction es as [|[i y] es IH]; [reflexivity|].
  cbn [map]. rewrite !filter_cons.
  destruct (decide (Datatypes.S i <= Datatypes.S c)%nat),
           (decide (i <= c)%nat); try lia; cbn [map]; now rewrite IH.
Qed.

Lemma visible_ids_take (layer_list : list Layer) (counter : nat) :
  map (fun '(idx, other_layer) => id other_layer)
    (filter (fun '(idx, other_layer) => (idx <= counter)%nat) (enumerate layer_list))
  = map id (take (Datatypes.S counter) layer_list).
Proof.
  revert counter. induction layer_list as [|l ls IH]; intros counter.
  - reflexivity.
  - rewrite enumerate_cons, filter_cons.
    destruct (decide (0 <= counter)%nat) as [_|H]; [|lia].
    cbn [map take]. f_equal.
    destruct counter as [|c].
    + now rewrite filter_shift_0, take_0.
    + rewrite filter_shift_S, <- IH, map_map.
      apply map_ext. now intros [i y].
Qed.

Lemma get_export_list_spec (include_background enumerate_option : bool)
    (layer_list : list Layer) :
  get_export_list include_background enumerate_option layer_list
  = map (fun '(counter, layer) => export_of enumerate_option layer_list counter layer)
        (drop (if include_background then 0 else 1)%nat (enumerate layer_list)).
Proof.
  unfold get_export_list.
  rewrite (flat_map_ext _
    (fun '(counter, layer) =>
       if (counter =? 0)%nat && negb include_background then []
       else [export_of enumerate_option layer_list counter layer])).
  2:{ intros [counter layer]. now rewrite visible_ids_take. }
  generalize (export_of enumerate_option layer_list). intros g.
  destruct layer_list as [|l ls].
  - now destruct include_background.
  - rewrite enumerate_cons. cbn [flat_map].
    assert (Hrest : forall es : list (nat * Layer),
      flat_map (fun '(counter, layer) =>
                  if (counter =? 0)%nat && negb include_background
                  then [] else [g counter layer])
               (map (fun '(i, y) => (Datatypes.S i, y)) es)
      = map (fun '(counter, layer) => g counter layer)
            (map (fun '(i, y) => (Datatypes.S i, y)) es)).
    { induction es as [|[i y] es IH]; [reflexivity|]. cbn. now rewrite IH. }
    rewrite Hrest. now destruct include_background.
Qed.

Lemma get_export_list_lookup (include_background enumerate_option : bool)
    (layer_list : list Layer) (k : nat) :
  get_export_list include_background enumerate_option layer_list !! k
  = export_of enumerate_option layer_list (source_index include_background k)
    <$> layer_list !! source_index include_background k.
Proof.
  rewrite get_export_list_spec, list_lookup_fmap, lookup_drop, enumerate_lookup.
  unfold source_index.
  destruct include_background; cbn [Nat.add];
    now destruct (layer_list !! _).
Qed.

(** C4. The planner emits one step per layer when the background is
    included and one per layer but the first when it is not; so it emits
    nothing, without failing, for an empty layer list and for at most one
    layer without background. *)
Theorem C4_export_count (enumerate_option : bool) (layer_list : list Layer) :
  length (get_export_list true enumerate_option layer_list) = length layer_list
  /\ length (get_export_list false enumerate_option layer_list)
     = (length layer_list - 1)%nat
  /\ (forall include_background,
        get_export_list include_background enumerate_option [] = [])
  /\ ((length layer_list <= 1)%nat ->
        get_export_list false enumerate_option layer_list = []).
Proof.
  assert (Hlen : forall b, length (get_export_list b enumerate_option layer_list)
                 = (length layer_list - (if b then 0 else 1))%nat).
  { intros b. now rewrite get_export_list_spec, length_map, length_drop,
      enumerate_length. }
  split; [|split; [|split]].
  - rewrite Hlen. lia.
  - apply Hlen.
  - now intros [].
  - intros Hle. apply length_zero_iff_nil. rewrite Hlen. lia.
Qed.

Lemma C4_export_count_witness :
  get_export_list false true [ {| id := "L1"; label := "bg" |} ] = []
  /\ length (get_export_list false true
        [ {| id := "L1"; label := "bg" |}; {| id := "L2"; label := "sky" |};
          {| id := "L3"; label := "bird" |} ]) = 2%nat.
Proof.
  split.
  - apply (C4_export_count true [ {| id := "L1"; label := "bg" |} ]). simpl. lia.
  - apply (C4_export_count true
             [ {| id := "L1"; label := "bg" |}; {| id := "L2"; label := "sky" |};
               {| id := "L3"; label := "bird" |} ]).
Defined.

Lemma elem_of_visible (layer_list : list Layer) (i : nat) (x : string) :
  x ∈ (list_to_set (map id (take (Datatypes.S i) layer_list)) : gset string)
  <-> exists j l, (j <= i)%nat /\ layer_list !! j = Some l /\ id l = x.
Proof.
  rewrite elem_of_list_to_set, list_elem_of_In, in_map_iff. split.
  - intros (l & Hid & Hin).
    apply list_elem_of_In, list_elem_of_lookup in Hin. destruct Hin as [j Hj].
    apply lookup_take_Some in Hj. destruct Hj as [Hj Hlt].
    exists j, l. repeat split; auto. lia.
  - intros (j & l & Hle & Hj & Hid).
    exists l. split; [exact Hid|].
    apply list_elem_of_In, list_elem_of_lookup. exists j.
    apply lookup_take_Some. split; [exact Hj|lia].
Qed.

(** C5. The step emitted for the layer at index [i] shows exactly the ids
    of the layers at indexes up to [i]; and, the layer ids being distinct
    (as document identifiers are), the next step shows strictly more. *)
Theorem C5_visible_prefix (include_background enumerate_option : bool)
    (layer_list : list Layer) (k : nat) (step : Export) :
  get_export_list include_background enumerate_option layer_list !! k = Some step ->
  let i := source_index include_background k in
  is_Some (layer_list !! i)
  /\ visible_layers step = list_to_set (map id (take (Datatypes.S i) layer_list))
  /\ (forall x, x ∈ visible_layers step
        <-> exists j l, (j <= i)%nat /\ layer_list !! j = Some l /\ id l = x)
  /\ (NoDup (map id layer_list) ->
      forall next,
        get_export_list include_background enumerate_option layer_list
          !! Datatypes.S k = Some next ->
        visible_layers step ⊂ visible_layers next).
Proof.
  intros Hstep i.
  rewrite get_export_list_lookup in Hstep. fold i in Hstep.
  destruct (layer_list !! i) as [l|] eqn:El; [|discriminate].
  inversion Hstep; subst step; clear Hstep. cbn [visible_layers export_of].
  split; [eauto|]. split; [reflexivity|]. split; [apply elem_of_visible|].
  intros Hnodup next Hnext.
  rewrite get_export_list_lookup in Hnext.
  replace (source_index include_background (Datatypes.S k))
    with (Datatypes.S i) in Hnext by (unfold i, source_index; now destruct include_background).
  destruct (layer_list !! Datatypes.S i) as [l'|] eqn:El'; [|discriminate].
  inversion Hnext; subst next; clear Hnext. cbn [visible_layers export_of].
  apply strict_spec_alt. split.
  - intros x. rewrite !elem_of_visible.
    intros (j & lj & Hle & Hj & Hid). exists j, lj. repeat split; auto.
  - intros Heq.
    assert (Hin : id l' ∈ (list_to_set (map id (take (Datatypes.S i) layer_list))
                            : gset string)).
    { rewrite Heq. apply elem_of_visible. exists (Datatypes.S i), l'. auto. }
    revert Hin.
    rewrite elem_of_visible. intros (j & lj & Hle & Hj & Hid).
    assert (Hj' : map id layer_list !! j = Some (id l')).
    { change (map id layer_list) with (id <$> layer_list).
      now rewrite list_lookup_fmap, Hj, <- Hid. }
    assert (Hi' : map id layer_list !! Datatypes.S i = Some (id l')).
    { change (map id layer_list) with (id <$> layer_list).
      now rewrite list_lookup_fmap, El'. }
    pose proof (NoDup_lookup _ _ _ _ Hnodup Hj' Hi'). lia.
Qed.

Lemma C5_visible_prefix_witness :
  let layers := [ {| id := "L1"; label := "bg" |}; {| id := "L2"; label := "sky" |};
                  {| id := "L3"; label := "bird" |} ] in
  let step := export_of true layers 1 {| id := "L2"; label := "sky" |} in
  let next := export_of true layers 2 {| id := "L3"; label := "bird" |} in
  file_name step = "002_sky" /\ file_name next = "003_bird"
  /\ visible_layers step = list_to_set ["L1"; "L2"]
  /\ visible_layers step ⊂ visible_layers next.
Proof.
  intros layers step next.
  assert (Hstep : get_export_list false true layers !! 0%nat = Some step)
    by reflexivity.
  destruct (C5_visible_prefix false true layers 0 step Hstep)
    as (_ & Hvis & _ & Hgrow).
  split; [reflexivity|]. split; [reflexivity|]. split; [exact Hvis|].
  apply Hgrow; [|reflexivity].
  apply (bool_decide_unpack (NoDup (map id layers))). vm_compute. exact I.
Defined.

(** ** The document tree *)

Lemma element_induction (P : element -> Prop) :
  (forall n t a tx cs, Forall P cs -> P (Element n t a tx cs)) ->
  forall e, P e.
Proof.
  intros H. fix IH 1. intros [n t a tx cs]. apply H.
  induction cs as [|c cs IHcs]; constructor; [apply IH | exact IHcs].
Qed.

Lemma get_set_other (key other value : string) (attrs : list (string * string)) :
  key <> other -> get other (set key value attrs) = get other attrs.
Proof.
  intros Hne. induction attrs as [|[k v] rest IH]; simpl.
  - destruct (String.eqb_spec key other); [contradiction|reflexivity].
  - destruct (String.eqb_spec k key) as [->|Hk]; simpl.
    + destruct (String.eqb_spec key other); [contradiction|reflexivity].
    + destruct (String.eqb_spec k other); [reflexivity|exact IH].
Qed.

Lemma style_rules_unfold (e : element) :
  style_rules e
  = (if is_style e then [(get "id" (attrib e), text e)] else [])
    ++ flat_map style_rules (children e).
Proof.
  destruct e as [m t a tx cs]. unfold style_rules.
  cbn [descendants_or_self children]. rewrite filter_cons.
  set (e := Element m t a tx cs).
  assert (Hrest : forall ds,
    map (fun e0 => (get "id" (attrib e0), text e0))
        (filter (fun e0 => is_style e0 = true) (flat_map descendants_or_self ds))
    = flat_map (fun c => map (fun e0 => (get "id" (attrib e0), text e0))
                  (filter (fun e0 => is_style e0 = true) (descendants_or_self c))) ds).
  { intros ds. induction ds as [|c ds IH]; [reflexivity|].
    cbn [flat_map]. now rewrite filter_app, map_app, IH. }
  destruct (decide (is_style e = true)) as [H|H].
  - rewrite H. cbn [map app]. now rewrite Hrest.
  - apply not_true_is_false in H. rewrite H. cbn [app]. apply Hrest.
Qed.

Lemma style_rules_set_style (n : nat) (value : string) (e : element) :
  style_rules (update_node n (set_attr "style" value) e) = style_rules e.
Proof.
  induction e as [m t a tx cs IH] using element_induction.
  rewrite (style_rules_unfold (Element m t a tx cs)).
  cbn [update_node nid tag attrib text children].
  assert (Hcs : flat_map style_rules (map (update_node n (set_attr "style" value)) cs)
                = flat_map style_rules cs).
  { induction IH as [|c cs' Hc _ IHcs]; [reflexivity|].
    cbn [map flat_map]. now rewrite Hc, IHcs. }
  destruct (Nat.eqb m n);
    rewrite style_rules_unfold;
    cbn [set_attr is_style nid tag attrib text children];
    rewrite ?get_set_other by discriminate;
    now rewrite Hcs.
Qed.

Lemma for_each_invariant {A S : Type} (I : S -> Prop) (body : A -> S -> result S) :
  (forall x s s', I s -> body x s = Ok s' -> I s') ->
  forall xs s s', I s -> for_each body xs s = Ok s' -> I s'.
Proof.
  intros Hbody. induction xs as [|x xs IH]; intros s s' Hs Hrun; simpl in Hrun.
  - now inversion Hrun; subst.
  - destruct (body x s) as [s1|] eqn:E; simpl in Hrun; [|discriminate].
    eapply IH; [|exact Hrun]. eapply Hbody; eassumption.
Qed.

Lemma for_each_succeeds {A S : Type} (P : A -> Prop) (body : A -> S -> result S) :
  (forall x s, P x -> succeeds (body x s)) ->
  forall xs s, Forall P xs -> succeeds (for_each body xs s).
Proof.
  intros Hbody. induction xs as [|x xs IH]; intros s Hxs; simpl.
  - now exists s.
  - inversion Hxs as [|? ? Hx Hrest]; subst.
    destruct (Hbody x s Hx) as [s1 ->]. simpl. now apply IH.
Qed.

Lemma add_or_replace_style_tag_last (tag_id content : string) (root root' : element) :
  add_or_replace_style_tag tag_id content root = Ok root' ->
  exists n,
    last (children root')
    = Some (Element n "style" [("id", tag_id)] (Some content) []).
Proof.
  unfold add_or_replace_style_tag.
  destruct (match find _ _ with Some old => remove old root | None => Ok root end)
    as [root1|]; simpl; [|discriminate].
  intros E. inversion E; subst. cbn [children SubElement].
  exists (fresh_nid root1). apply last_snoc.
Qed.

(** ** The style-tag upsert *)

Lemma nid_lt_fresh (root e : element) :
  e ∈ descendants_or_self root -> (nid e < fresh_nid root)%nat.
Proof.
  unfold fresh_nid. generalize (descendants_or_self root). intros ds Hin.
  induction ds as [|d ds IH]; [now apply not_elem_of_nil in Hin|].
  apply elem_of_cons in Hin. cbn [map fold_right].
  destruct Hin as [->|Hin]; [lia|]. specialize (IH Hin). lia.
Qed.

Lemma descendants_or_self_children (n : nat) (t : string)
    (a : list (string * string)) (tx : option string) (cs : list element)
    (e c : element) :
  c ∈ cs -> e ∈ descendants_or_self c ->
  e ∈ descendants_or_self (Element n t a tx cs).
Proof.
  intros Hc He. cbn [descendants_or_self children]. apply elem_of_cons. right.
  apply list_elem_of_In, in_flat_map. exists c.
  split; now apply list_elem_of_In.
Qed.

(** The element appended by one upsert is not the one the next upsert
    takes out: the search looks among the elements in the SVG namespace
    and the appended element has none. *)
Lemma upsert_keeps_appended (tag_id content : string) (root0 root2 new_rule : element) :
  let root1 := Element (nid root0) (tag root0) (attrib root0) (text root0)
                 (children root0 ++ [new_rule]) in
  tag new_rule = "style" -> children new_rule = [] ->
  nid new_rule = fresh_nid root0 ->
  add_or_replace_style_tag tag_id content root1 = Ok root2 ->
  exists cs n,
    children root2
    = cs ++ [new_rule; Element n "style" [("id", tag_id)] (Some content) []].
Proof.
  intros root1 Htag Hleaf Hnid. unfold add_or_replace_style_tag.
  destruct (find _ (xpath_styles root1)) as [old|] eqn:Efind.
  - apply find_some in Efind. destruct Efind as [Hin _].
    apply list_elem_of_In, list_elem_of_filter in Hin. destruct Hin as [Hsvg Hin].
    assert (Hne : nid new_rule <> nid old).
    { unfold root1 in Hin. cbn [descendants_or_self children] in Hin.
      apply elem_of_cons in Hin. destruct Hin as [->|Hin].
      - cbn [nid]. rewrite Hnid.
        pose proof (nid_lt_fresh root0 root0) as H.
        destruct root0; cbn [descendants_or_self] in H.
        assert (Hself : forall n t a tx cs,
                  Element n t a tx cs ∈ descendants_or_self (Element n t a tx cs))
          by (intros; apply elem_of_cons; now left).
        specialize (H (Hself _ _ _ _ _)). lia.
      - apply list_elem_of_In, in_flat_map in Hin. destruct Hin as (c & Hc & He).
        apply in_app_or in Hc. destruct Hc as [Hc|[<-|[]]].
        + rewrite Hnid.
          assert (Hold : old ∈ descendants_or_self root0).
          { destruct root0. eapply descendants_or_self_children;
              apply list_elem_of_In; eassumption. }
          apply nid_lt_fresh in Hold. lia.
        + destruct new_rule as [m t a tx cs]. cbn in Hleaf, Htag. subst cs t.
          destruct He as [<-|[]]. discriminate Hsvg. }
    unfold remove. destruct (existsb _ _); simpl; [|discriminate].
    intros E. inversion E; subst root2. cbn [children SubElement].
    rewrite filter_app, filter_cons.
    destruct (decide (nid new_rule <> nid old)) as [_|H]; [|contradiction].
    rewrite filter_nil, <- app_assoc. cbn [app]. eauto.
  - simpl. intros E. inversion E; subst root2. cbn [children SubElement root1].
    rewrite <- app_assoc. cbn [app]. eauto.
Qed.

Lemma upsert_twice_keeps_both (tag_id first second : string) (root root1 root2 : element) :
  add_or_replace_style_tag tag_id first root = Ok root1 ->
  add_or_replace_style_tag tag_id second root1 = Ok root2 ->
  exists cs n1 n2,
    children root2
    = cs ++ [Element n1 "style" [("id", tag_id)] (Some first) [];
             Element n2 "style" [("id", tag_id)] (Some second) []].
Proof.
  intros H1 H2. unfold add_or_replace_style_tag in H1.
  destruct (match find _ _ with Some old => remove old root | None => Ok root end)
    as [root0|]; simpl in H1; [|discriminate].
  inversion H1; subst root1; clear H1. unfold SubElement in H2.
  apply upsert_keeps_appended in H2; try reflexivity.
  destruct H2 as (cs & n & Hcs). eauto.
Qed.

(** C6 (the code departs from the claim). Two successive upserts of the
    same id leave both inserted rules in the document, not one: the new
    element is created as [style] without a namespace, and the search for
    the rule to replace only looks at [style] elements of the SVG
    namespace.  A rule parsed from an SVG file is replaced. *)
Theorem C6_upsert_twice_leaves_two_rules :
  (forall tag_id first second root root1 root2,
     add_or_replace_style_tag tag_id first root = Ok root1 ->
     add_or_replace_style_tag tag_id second root1 = Ok root2 ->
     exists cs n1 n2,
       children root2
       = cs ++ [Element n1 "style" [("id", tag_id)] (Some first) [];
                Element n2 "style" [("id", tag_id)] (Some second) []])
  /\ (exists root2,
        (do root1 <- add_or_replace_style_tag "X" "a" (sample_svg []);
         add_or_replace_style_tag "X" "b" root1) = Ok root2
        /\ map text (rules_with_id "X" root2) = [Some "a"; Some "b"])
  /\ (exists root1,
        add_or_replace_style_tag "X" "b"
          (sample_svg [Element 1 (addNS "style" svg_ns) [("id", "X")] (Some "a") []])
        = Ok root1
        /\ map text (rules_with_id "X" root1) = [Some "b"]).
Proof.
  split; [|split].
  - intros tag_id first second root root1 root2 H1 H2.
    eapply upsert_twice_keeps_both; eassumption.
  - eexists. split; reflexivity.
  - eexists. split; reflexivity.
Qed.

Lemma C6_upsert_twice_leaves_two_rules_witness :
  exists cs n1 n2,
    [Element 1 "style" [("id", "X")] (Some "a") [];
     Element 2 "style" [("id", "X")] (Some "b") []]
    = cs ++ [Element n1 "style" [("id", "X")] (Some "a") [];
             Element n2 "style" [("id", "X")] (Some "b") []].
Proof.
  apply (proj1 C6_upsert_twice_leaves_two_rules "X" "a" "b" (sample_svg [])
           (SubElement (sample_svg []) "style" [("id", "X")] "a")
           (SubElement (SubElement (sample_svg []) "style" [("id", "X")] "a")
              "style" [("id", "X")] "b"));
    reflexivity.
Defined.

(** ** Style rules of a path *)

(** C8 (as amended). [animate_path], called with the start length
    [length] and the end length 0 as [add_animation] calls it, upserts one
    rule keyed [pathanim_{pathId}] and then sets the class of the path.
    The rule text has an id selector [#{pathId}], not a class selector,
    that sets [animation-name: {pathId}] and
    [stroke-dasharray: {length} !important], and a keyframes block named
    [{pathId}] where [0%] and [{start}%] set [stroke-dashoffset: {length}]
    and [{end}%] and [100%] set [stroke-dashoffset: 0]. *)
Theorem C8_path_rule (float_repr : Q -> string) (elem : element)
    (start_percent end_percent length : pynum) (anim_id : string)
    (root root' : element) :
  animate_path float_repr elem start_percent end_percent length length (PInt 0)
    anim_id root = Ok root' ->
  let path_id := str_opt (get "id" (attrib elem)) in
  let content :=
    path_style_content float_repr path_id start_percent end_percent length
      length (PInt 0) in
  (exists root1 n,
     root' = update_node (nid elem) (set_attr "class" anim_id) root1
     /\ last (children root1)
        = Some (Element n "style" [("id", ("pathanim_" ++ path_id)%string)]
                  (Some content) []))
  /\ content
     = (nl ++
        "        #" ++ path_id ++ " {" ++ nl ++
        "          animation-name: " ++ path_id ++ ";" ++ nl ++
        "          stroke-dasharray: " ++ str float_repr length ++ " !important;" ++ nl ++
        "        }" ++ nl ++
        "        @keyframes " ++ path_id ++ " {" ++ nl ++
        "          0%, " ++ str float_repr start_percent ++ "% {stroke-dashoffset: "
          ++ str float_repr length ++ ";}" ++ nl ++
        "          " ++ str float_repr end_percent
          ++ "%, 100% {stroke-dashoffset: 0;}" ++ nl ++
        "        }" ++ nl)%string.
Proof.
  intros Hrun path_id content. split; [|reflexivity].
  unfold animate_path in Hrun. fold path_id content in Hrun.
  destruct (add_or_replace_style_tag _ content root) as [root1|] eqn:E;
    simpl in Hrun; [|discriminate].
  inversion Hrun; subst root'.
  apply add_or_replace_style_tag_last in E. destruct E as [n Hn].
  exists root1, n. split; [reflexivity|exact Hn].
Qed.

Lemma C8_path_rule_witness :
  exists root1 n,
    last (children root1)
    = Some (Element n "style" [("id", "pathanim_p1")]
              (Some (path_style_content sample_float_repr "p1" (PInt 0)
                       (PFloat 100) (PFloat 3) (PFloat 3) (PInt 0))) []).
Proof.
  destruct (C8_path_rule sample_float_repr (sample_path 4 "p1") (PInt 0)
              (PFloat 100) (PFloat 3) "anim_0" two_layer_document
              (update_node 4 (set_attr "class" "anim_0")
                 (SubElement two_layer_document "style" [("id", "pathanim_p1")]
                    (path_style_content sample_float_repr "p1" (PInt 0)
                       (PFloat 100) (PFloat 3) (PFloat 3) (PInt 0))))
              eq_refl)
    as [(root1 & n & _ & Hlast) _].
  exists root1, n. exact Hlast.
Defined.

(** C8 as stated fails: the selector of the rule that [animate_path]
    emits for the path [p1] is [#p1], an id selector, not a class
    selector. *)
Lemma C8_selector_counterexample :
  let content :=
    path_style_content sample_float_repr "p1" (PInt 0) (PFloat 100) (PFloat 3)
      (PFloat 3) (PInt 0) in
  first_selector content = "#p1 "
  /\ is_id_selector (first_selector content) = true
  /\ ~ is_class_selector (first_selector content) = true.
Proof.
  split; [reflexivity|]. split; [reflexivity|]. discriminate.
Qed.

(** ** The export driver *)

Section DriverFacts.
Variable animation_style : string.
Variable segment_lengths : element -> list (list Q).
Variable float_repr : Q -> string.

Lemma export_to_svg_spec (export_item : Export) (r r' : run) :
  export_to_svg export_item r = Ok r' ->
  document r' = document r
  /\ messages r' = messages r
  /\ exists copy,
       written r' = written r ++ [((file_name export_item ++ ".svg")%string, copy)]
       /\ style_rules copy = style_rules (document r).
Proof.
  unfold export_to_svg.
  destruct (for_each _ (xpath_layers (document r)) (document r)) as [copy|] eqn:E;
    simpl; [|discriminate].
  intros Hr. inversion Hr; subst r'. cbn [document messages written].
  split; [reflexivity|]. split; [reflexivity|].
  exists copy. split; [reflexivity|].
  revert E.
  apply (for_each_invariant (fun c => style_rules c = style_rules (document r)));
    [|reflexivity].
  intros layer c c' Hc Hbody.
  destruct (get "id" (attrib layer)); [|discriminate].
  inversion Hbody; subst c'. now rewrite style_rules_set_style.
Qed.

Lemma export_to_svg_succeeds (export_item : Export) (r : run) :
  Forall (fun layer => is_Some (get "id" (attrib layer)))
         (xpath_layers (document r)) ->
  succeeds (export_to_svg export_item r).
Proof.
  intros Hids. unfold export_to_svg.
  destruct (for_each_succeeds
              (fun layer => is_Some (get "id" (attrib layer)))
              (fun layer copy =>
                 match get "id" (attrib layer) with
                 | Some i =>
                     Ok (update_node (nid layer)
                           (set_attr "style"
                              (display (bool_decide (i ∈ visible_layers export_item))))
                           copy)
                 | None => Raise KeyError
                 end)
              ltac:(intros layer copy [i ->]; eexists; reflexivity)
              (xpath_layers (document r)) (document r) Hids) as [copy ->].
  simpl. eexists. reflexivity.
Qed.


Lemma set_layer_styles_keeps_rules (layer_list : list Layer) (export_item : Export)
    (root root' : element) :
  set_layer_styles layer_list export_item root = Ok root' ->
  style_rules root' = style_rules root.
Proof.
  apply (for_each_invariant (fun c => style_rules c = style_rules root));
    [|reflexivity].
  intros layer c c' Hc Hbody.
  destruct (getElementById (id layer) c); [|discriminate].
  inversion Hbody; subst c'. now rewrite style_rules_set_style.
Qed.

Lemma add_animation_no_paths (anim_id : string) (r : run) :
  add_animation animation_style segment_lengths float_repr [] anim_id r
  = Ok {| document := document r;
          messages := messages r ++ [no_paths_message];
          written := written r |}.
Proof. reflexivity. Qed.
End DriverFacts.

(** C7. When the top layer of a step has no path element, the step tells
    the user so, leaves the style rules of the document as they were, and
    still writes the file of the step. *)
Theorem C7_no_paths_still_exports
    (animation_style : string) (segment_lengths : element -> list (list Q))
    (float_repr : Q -> string) (set_iteration : gset string -> list string)
    (layer_list : list Layer) (idx : nat) (export_item : Export) (r : run)
    (root : element) (top_layer_id : string) (top_layer_tag : element) :
  set_layer_styles layer_list export_item (document r) = Ok root ->
  last (set_iteration (visible_layers export_item)) = Some top_layer_id ->
  getElementById top_layer_id root = Some top_layer_tag ->
  get_all_paths_in_layer top_layer_tag = [] ->
  Forall (fun layer => is_Some (get "id" (attrib layer))) (xpath_layers root) ->
  exists copy,
    export_step animation_style segment_lengths float_repr set_iteration
      layer_list idx export_item r
    = Ok {| document := root;
            messages := messages r ++ [no_paths_message];
            written := written r
                       ++ [((file_name export_item ++ ".svg")%string, copy)] |}
    /\ style_rules root = style_rules (document r)
    /\ style_rules copy = style_rules (document r).
Proof.
  intros Hstyles Hlast Htop Hnone Hids.
  pose proof (set_layer_styles_keeps_rules _ _ _ _ Hstyles) as Hrules.
  unfold export_step. rewrite Hstyles. simpl.
  rewrite Hlast. simpl. rewrite Htop. simpl. rewrite Hnone.
  rewrite add_animation_no_paths. cbn [rbind document messages written].
  set (r1 := {| document := root;
                messages := messages r ++ [no_paths_message];
                written := written r |}).
  destruct (export_to_svg_succeeds export_item r1 Hids) as [r2 Hr2].
  rewrite Hr2.
  destruct (export_to_svg_spec _ _ _ Hr2) as (Hdoc & Hmsg & copy & Hwritten & Hcopy).
  exists copy. split; [|split].
  - destruct r2 as [d m w]. cbn in Hdoc, Hmsg, Hwritten. now subst.
  - exact Hrules.
  - cbn [document r1] in Hcopy. now rewrite Hcopy.
Qed.

Lemma C7_no_paths_still_exports_witness :
  exists r',
    export_step "ease" two_segment_geometry sample_float_repr ascending_iteration
      sample_layers 1 (export_of false sample_layers 1 {| id := "L2"; label := "sky" |})
      (empty_run empty_top_document) = Ok r'
    /\ messages r' = [no_paths_message]
    /\ map fst (written r') = ["sky.svg"]
    /\ style_rules (document r') = [].
Proof.
  set (item := export_of false sample_layers 1 {| id := "L2"; label := "sky" |}).
  set (root := value_or empty_top_document
                 (set_layer_styles sample_layers item empty_top_document)).
  set (top := default empty_top_document (getElementById "L2" root)).
  assert (Hids : Forall (fun layer => is_Some (get "id" (attrib layer)))
                   (xpath_layers root)).
  { apply (bool_decide_unpack _). vm_compute. exact I. }
  destruct (C7_no_paths_still_exports "ease" two_segment_geometry
              sample_float_repr ascending_iteration sample_layers 1 item
              (empty_run empty_top_document) root "L2" top
              eq_refl eq_refl eq_refl eq_refl Hids)
    as (copy & Hrun & Hrules & _).
  eexists. split; [exact Hrun|]. cbn [messages written document empty_run].
  split; [reflexivity|]. split; [reflexivity|]. exact Hrules.
Defined.




(** C2 (the code departs from the claim). The top layer of a step is the
    last item in the iteration order of the set of visible layer ids, which
    is not fixed by the order of the layers.  On two layers, [L1] below
    [L2], the step that reveals [L2] animates the path of [L2] under one
    iteration order of the set and the path of [L1] under another. *)
Theorem C2_top_layer_follows_set_iteration :
  let visible : gset string := list_to_set ["L1"; "L2"] in
  Permutation (ascending_iteration visible) (descending_iteration visible)
  /\ last (ascending_iteration visible) = Some "L2"
  /\ last (descending_iteration visible) = Some "L1"
  /\ exists ra rd,
       effect true false "ease" two_segment_geometry sample_float_repr
         ascending_iteration two_layer_document = Ok ra
       /\ effect true false "ease" two_segment_geometry sample_float_repr
            descending_iteration two_layer_document = Ok rd
       /\ paths_with_class "anim_1" (document ra) = [Some "p2"]
       /\ paths_with_class "anim_1" (document rd) = [Some "p1"].
Proof.
  intros visible. split; [apply Permutation_rev|].
  split; [reflexivity|]. split; [reflexivity|].
  do 2 eexists. split; [vm_compute; reflexivity|].
  split; [vm_compute; reflexivity|].
  split; reflexivity.
Qed.

(** * Further properties *)

(** ** Reading the layers *)





(** ** What a step shows *)

(** X2. Every step shows its own layer and the bottom layer, and shows
    only layers of the list; so its set of visible layers is never
    empty. *)
Theorem X2_visible_contents (include_background enumerate_option : bool)
    (layer_list : list Layer) (k : nat) (step : Export) :
  get_export_list include_background enumerate_option layer_list !! k = Some step ->
  (exists layer,
     layer_list !! source_index include_background k = Some layer
     /\ id layer ∈ visible_layers step
     /\ file_name step
        = if enumerate_option
          then (format_03d (source_index include_background k + 1) ++ "_"
                ++ label layer)%string
          else label layer)
  /\ (exists bottom, layer_list !! 0%nat = Some bottom
                     /\ id bottom ∈ visible_layers step)
  /\ (forall x, x ∈ visible_layers step -> x ∈ map id layer_list)
  /\ visible_layers step <> ∅.
Proof.
  intros Hstep. rewrite get_export_list_lookup in Hstep.
  set (i := source_index include_background k) in *.
  destruct (layer_list !! i) as [l|] eqn:El; [|discriminate].
  inversion Hstep; subst step; clear Hstep. cbn [visible_layers file_name export_of].
  assert (Hown : id l ∈ (list_to_set (map id (take (Datatypes.S i) layer_list))
                          : gset string)).
  { apply elem_of_visible. exists i, l. auto. }
  split; [exists l; auto|]. split; [|split].
  - destruct layer_list as [|b rest]; [destruct i; discriminate|].
    exists b. split; [reflexivity|].
    apply elem_of_visible. exists 0%nat, b.
    split; [lia|split; reflexivity].
  - intros x Hx. apply elem_of_visible in Hx.
    destruct Hx as (j & lj & _ & Hj & <-).
    apply list_elem_of_In, in_map. apply list_elem_of_In.
    eapply list_elem_of_lookup_2. exact Hj.
  - intros Hempty. rewrite Hempty in Hown. now apply not_elem_of_empty in Hown.
Qed.

Lemma X2_visible_contents_witness :
  exists layer,
    sample_layers !! 1%nat = Some layer
    /\ id layer ∈ visible_layers (export_of true sample_layers 1 {| id := "L2"; label := "sky" |})
    /\ file_name (export_of true sample_layers 1 {| id := "L2"; label := "sky" |})
       = "002_sky".
Proof.
  destruct (X2_visible_contents false true sample_layers 0
              (export_of true sample_layers 1 {| id := "L2"; label := "sky" |})
              eq_refl) as [(layer & Hl & Hin & Hname) _].
  exists layer. split; [exact Hl|]. split; [exact Hin|].
  rewrite Hname. cbn in Hl. inversion Hl; subst layer. reflexivity.
Defined.

(** ** The paths of a layer *)

Lemma descendants_or_self_self (e : element) : e ∈ descendants_or_self e.
Proof. destruct e. apply elem_of_cons. now left. Qed.

Lemma descendants_or_self_unfold (e : element) :
  descendants_or_self e = e :: descendants e.
Proof. now destruct e. Qed.

Lemma elem_of_descendants (e x : element) :
  x ∈ descendants e <-> exists c, c ∈ children e /\ x ∈ descendants_or_self c.
Proof.
  unfold descendants. rewrite list_elem_of_In, in_flat_map.
  split; intros (c & Hc & Hx); exists c; split; now apply list_elem_of_In.
Qed.

Lemma descendants_or_self_trans (l : element) :
  forall c x,
    c ∈ descendants_or_self l -> x ∈ descendants_or_self c ->
    x ∈ descendants_or_self l.
Proof.
  induction l as [n t a tx cs IH] using element_induction.
  intros c x Hc Hx.
  rewrite descendants_or_self_unfold in Hc. apply elem_of_cons in Hc.
  destruct Hc as [->|Hc]; [exact Hx|].
  apply elem_of_descendants in Hc. destruct Hc as (d & Hd & Hc).
  rewrite descendants_or_self_unfold. apply elem_of_cons. right.
  apply elem_of_descendants. exists d. split; [exact Hd|].
  cbn [children] in Hd.
  rewrite List.Forall_forall in IH.
  eapply (IH d); [now apply list_elem_of_In|exact Hc|exact Hx].
Qed.

(** X3. [get_all_paths_in_layer] yields path elements only, all of them
    below the layer; and the paths of any group nested in the layer, a
    sub-layer included, are among the paths of the layer. *)
Theorem X3_paths_of_nested_groups (layer_element sub : element) :
  Forall (fun p => tag p = addNS "path" svg_ns /\ p ∈ descendants layer_element)
         (get_all_paths_in_layer layer_element)
  /\ (sub ∈ descendants layer_element ->
      forall p, p ∈ get_all_paths_in_layer sub ->
                p ∈ get_all_paths_in_layer layer_element).
Proof.
  split.
  - apply List.Forall_forall. intros p Hp.
    apply list_elem_of_In, list_elem_of_filter in Hp. exact Hp.
  - intros Hsub p Hp.
    apply list_elem_of_filter in Hp. destruct Hp as [Htag Hp].
    apply list_elem_of_filter. split; [exact Htag|].
    apply elem_of_descendants in Hsub. destruct Hsub as (c & Hc & Hsub).
    apply elem_of_descendants. exists c. split; [exact Hc|].
    apply descendants_or_self_trans with (c := sub); [exact Hsub|].
    rewrite descendants_or_self_unfold. apply elem_of_cons. now right.
Qed.

Lemma X3_paths_of_nested_groups_witness :
  let inner := sample_layer 2 "L2a" "Cloud" [sample_path 3 "p3"] in
  let outer := sample_layer 1 "L2" "Sky" [inner; sample_path 4 "p4"] in
  sample_path 3 "p3" ∈ get_all_paths_in_layer outer.
Proof.
  intros inner outer.
  apply (X3_paths_of_nested_groups outer inner).
  - apply elem_of_descendants. exists inner. split.
    + apply elem_of_cons. now left.
    + apply descendants_or_self_self.
  - change (get_all_paths_in_layer inner) with [sample_path 3 "p3"].
    apply elem_of_cons. now left.
Defined.

(** ** Lengths *)

Lemma total_val_cons (x : pynum) (xs : list pynum) :
  total_val (x :: xs) = (val x + total_val xs)%Q.
Proof. reflexivity. Qed.

Lemma val_fold_add (xs : list pynum) (a : pynum) :
  (val (fold_left add xs a) == val a + total_val xs)%Q.
Proof.
  revert a. induction xs as [|x xs IH]; intros a.
  - cbn [fold_left]. change (total_val []) with 0%Q. lra.
  - cbn [fold_left]. rewrite IH, val_add, total_val_cons. lra.
Qed.

Lemma val_sum_total (xs : list pynum) : (val (sum xs) == total_val xs)%Q.
Proof.
  unfold sum. rewrite val_fold_add. change (val (PInt 0)) with 0%Q. lra.
Qed.

Lemma total_val_app (xs ys : list pynum) :
  (total_val (xs ++ ys) == total_val xs + total_val ys)%Q.
Proof.
  induction xs as [|x xs IH].
  - cbn [app]. change (total_val []) with 0%Q. lra.
  - cbn [app]. rewrite !total_val_cons, IH. lra.
Qed.

Lemma total_val_nonneg (xs : list pynum) :
  Forall (fun x => (0 <= val x)%Q) xs -> (0 <= total_val xs)%Q.
Proof.
  induction 1 as [|x xs Hx _ IH].
  - change (total_val []) with 0%Q. lra.
  - rewrite total_val_cons. lra.
Qed.

Lemma sub_total_le_total (subs : list (list pynum)) (sub : list pynum) :
  Forall (Forall (fun x => (0 <= val x)%Q)) subs ->
  In sub subs ->
  (total_val sub <= total_val (concat subs))%Q.
Proof.
  induction 1 as [|s subs Hs Hrest IH]; intros Hin; [contradiction|].
  cbn [concat]. rewrite total_val_app.
  pose proof (total_val_nonneg s Hs) as H1.
  assert (H2 : (0 <= total_val (concat subs))%Q).
  { apply total_val_nonneg. clear -Hrest.
    induction Hrest as [|t ts Ht _ IHt]; [constructor|].
    cbn [concat]. apply Forall_app. split; assumption. }
  destruct Hin as [->|Hin]; [lra|]. specialize (IH Hin). lra.
Qed.

(** X4. For segment lengths that are not negative, the animatable length
    of a path is not negative and never exceeds the total arc length that
    [csplength] reports. *)
Theorem X4_animatable_length_bounds
    (segment_lengths : element -> list (list Q)) (elem : element) :
  Forall (Forall (fun q => (0 <= q)%Q)) (segment_lengths elem) ->
  (0 <= val (get_animatable_length segment_lengths elem))%Q
  /\ (val (get_animatable_length segment_lengths elem)
      <= val (snd (csplength (segment_lengths elem))))%Q.
Proof.
  intros Hseg.
  set (subs := map (map PFloat) (segment_lengths elem)).
  assert (Hsubs : Forall (Forall (fun x => (0 <= val x)%Q)) subs).
  { unfold subs. clear -Hseg.
    induction Hseg as [|s ss Hs _ IH]; [constructor|].
    cbn [map]. constructor; [|exact IH].
    clear -Hs. induction Hs; constructor; assumption. }
  assert (Htotal : (val (snd (csplength (segment_lengths elem)))
                    == total_val (concat subs))%Q).
  { unfold csplength. cbn [snd]. fold subs. rewrite val_fold_add.
    change (val (PInt 0)) with 0%Q. lra. }
  assert (H0 : (0 <= total_val (concat subs))%Q).
  { apply total_val_nonneg. clear -Hsubs.
    induction Hsubs as [|t ts Ht _ IHt]; [constructor|].
    cbn [concat]. apply Forall_app. split; assumption. }
  unfold get_animatable_length, animatable_length.
  unfold csplength in *. fold subs in Htotal |- *. cbn [snd] in Htotal.
  destruct (1 <? length subs)%nat.
  - destruct (map sum subs) as [|first others] eqn:E.
    + split; [rewrite Htotal; exact H0|apply Qle_refl].
    + pose proof (max_list_In others first) as Hin. rewrite <- E in Hin.
      apply in_map_iff in Hin. destruct Hin as (sub & Hsum & Hin).
      rewrite <- Hsum, val_sum_total, Htotal. split.
      * apply total_val_nonneg.
        rewrite List.Forall_forall in Hsubs. now apply Hsubs.
      * now apply sub_total_le_total.
  - split; [rewrite Htotal; exact H0|apply Qle_refl].
Qed.

Lemma X4_animatable_length_bounds_witness :
  (val (get_animatable_length (fun _ => [[1%Q; 2%Q]; [5%Q]; [4%Q]])
          (sample_path 1 "p"))
   <= val (snd (csplength [[1%Q; 2%Q]; [5%Q]; [4%Q]])))%Q.
Proof.
  apply (X4_animatable_length_bounds (fun _ => [[1%Q; 2%Q]; [5%Q]; [4%Q]])
           (sample_path 1 "p")).
  repeat constructor; discriminate.
Defined.

(** ** How much of the timeline the paths cover *)









(** ** Errors of the upsert and of the animation *)

Lemma existsb_nid_false (old : element) (cs : list element) :
  existsb (fun c => Nat.eqb (nid c) (nid old)) cs = false
  <-> Forall (fun c => nid c <> nid old) cs.
Proof.
  induction cs as [|c cs IH]; cbn [existsb].
  - split; [constructor|reflexivity].
  - rewrite orb_false_iff, IH, Nat.eqb_neq. split.
    + intros [H1 H2]. now constructor.
    + intros H. inversion H; subst. now split.
Qed.

Lemma add_or_replace_style_tag_raises (tag_id content : string) (root : element)
    (e : exn) :
  add_or_replace_style_tag tag_id content root = Raise e ->
  e = ValueError
  /\ exists old,
       find (fun t => bool_decide (get "id" (attrib t) = Some tag_id))
            (xpath_styles root) = Some old
       /\ Forall (fun c => nid c <> nid old) (children root).
Proof.
  unfold add_or_replace_style_tag.
  destruct (find _ (xpath_styles root)) as [old|]; simpl; [|discriminate].
  unfold remove.
  destruct (existsb _ (children root)) eqn:E; simpl; [discriminate|].
  intros H. inversion H; subst e. split; [reflexivity|].
  exists old. split; [reflexivity|]. now apply existsb_nid_false.
Qed.

(** X6. [add_or_replace_style_tag] fails in one case only: the first
    [svg:style] element of the document with the given id is not a child
    of the root (it sits deeper, in a [defs] group, say); lxml's [remove]
    then raises [ValueError].  In every other case the call succeeds and
    the new rule is the last child of the root. *)
Theorem X6_upsert_errors (tag_id content : string) (root : element) :
  let first_match :=
    find (fun t => bool_decide (get "id" (attrib t) = Some tag_id))
         (xpath_styles root) in
  (forall e,
     add_or_replace_style_tag tag_id content root = Raise e ->
     e = ValueError
     /\ exists old, first_match = Some old
                    /\ Forall (fun c => nid c <> nid old) (children root))
  /\ (forall old,
        first_match = Some old ->
        Forall (fun c => nid c <> nid old) (children root) ->
        add_or_replace_style_tag tag_id content root = Raise ValueError)
  /\ (first_match = None ->
        add_or_replace_style_tag tag_id content root
        = Ok (SubElement root "style" [("id", tag_id)] content)).
Proof.
  intros first_match. split; [|split].
  - intros e He. now apply add_or_replace_style_tag_raises in He.
  - intros old Hold Hnot. apply existsb_nid_false in Hnot.
    unfold add_or_replace_style_tag. fold first_match. rewrite Hold.
    simpl. unfold remove. now rewrite Hnot.
  - intros Hnone. unfold add_or_replace_style_tag. fold first_match.
    now rewrite Hnone.
Qed.

Lemma X6_upsert_errors_witness :
  add_or_replace_style_tag "X" "b"
    (sample_svg
       [Element 1 (addNS "defs" svg_ns) [] None
          [Element 2 (addNS "style" svg_ns) [("id", "X")] (Some "a") []]])
  = Raise ValueError.
Proof.
  apply (X6_upsert_errors "X" "b"
           (sample_svg
              [Element 1 (addNS "defs" svg_ns) [] None
                 [Element 2 (addNS "style" svg_ns) [("id", "X")] (Some "a") []]])
           ) with (old := Element 2 (addNS "style" svg_ns) [("id", "X")] (Some "a") []).
  - reflexivity.
  - repeat constructor. cbn. lia.
Defined.





(** ** Attributes set by identity *)

Lemma get_set_same (key value : string) (attrs : list (string * string)) :
  get key (set key value attrs) = Some value.
Proof.
  induction attrs as [|[k v] rest IH]; simpl.
  - now rewrite String.eqb_refl.
  - destruct (String.eqb_spec k key) as [->|Hk]; simpl.
    + now rewrite String.eqb_refl.
    + destruct (String.eqb_spec k key); [contradiction|exact IH].
Qed.

Lemma map_flat_map {A B C : Type} (f : B -> C) (g : A -> list B) (xs : list A) :
  map f (flat_map g xs) = flat_map (fun x => map f (g x)) xs.
Proof.
  induction xs as [|x xs IH]; [reflexivity|].
  cbn [flat_map]. now rewrite map_app, IH.
Qed.

Lemma views_update_node (n : nat) (key value : string) (e : element) :
  map view (descendants_or_self (update_node n (set_attr key value) e))
  = map (set_in_view n key value) (map view (descendants_or_self e)).
Proof.
  induction e as [m t a tx cs IH] using element_induction.
  assert (Hcs :
    map view (flat_map descendants_or_self
                (map (update_node n (set_attr key value)) cs))
    = map (set_in_view n key value) (map view (flat_map descendants_or_self cs))).
  { induction IH as [|c cs' Hc _ IHcs]; [reflexivity|].
    cbn [map flat_map]. now rewrite !map_app, Hc, IHcs. }
  cbn [update_node nid tag attrib text children].
  destruct (Nat.eqb m n) eqn:E;
    cbn [set_attr descendants_or_self nid tag attrib text children map view
         set_in_view];
    rewrite E, Hcs; reflexivity.
Qed.

Lemma view_in_map (node : element) (root : element)
    (f : nat * string * list (string * string) -> nat * string * list (string * string)) :
  map view (descendants_or_self root)
  = map f (map view (descendants_or_self node)) ->
  forall x, x ∈ descendants_or_self root ->
  exists x0, x0 ∈ descendants_or_self node /\ view x = f (view x0).
Proof.
  intros Hviews x Hx.
  assert (Hin : In (view x) (map view (descendants_or_self root))).
  { apply in_map. now apply list_elem_of_In. }
  rewrite Hviews, map_map in Hin. apply in_map_iff in Hin.
  destruct Hin as (x0 & Hv & Hx0). exists x0.
  split; [now apply list_elem_of_In|now symmetry].
Qed.

Lemma descendants_or_self_SubElement (root : element) (new_tag : string)
    (attrs : list (string * string)) (content : string) :
  map nid (descendants_or_self (SubElement root new_tag attrs content))
  = map nid (descendants_or_self root) ++ [fresh_nid root].
Proof.
  destruct root as [m t a tx cs].
  unfold SubElement. cbn [descendants_or_self nid tag attrib text children].
  rewrite flat_map_app. cbn [flat_map descendants_or_self children].
  cbn [map]. now rewrite app_nil_r, map_app.
Qed.

(** X8. After [animate_path], every element that is the animated path
    carries the class [anim_id], whatever class it had; and when the
    document has no [svg:style] element with the id of the rule, its
    elements are those it had, followed by the new rule. *)
Theorem X8_animate_path_sets_class (float_repr : Q -> string) (elem : element)
    (start_percent end_percent length start_length end_length : pynum)
    (anim_id : string) (root root' : element) :
  animate_path float_repr elem start_percent end_percent length start_length
    end_length anim_id root = Ok root' ->
  (forall node,
     node ∈ descendants_or_self root' -> nid node = nid elem ->
     get "class" (attrib node) = Some anim_id)
  /\ (find (fun t => bool_decide
                       (get "id" (attrib t)
                        = Some ("pathanim_" ++ str_opt (get "id" (attrib elem)))%string))
           (xpath_styles root) = None ->
      map nid (descendants_or_self root')
      = map nid (descendants_or_self root) ++ [fresh_nid root]).
Proof.
  unfold animate_path.
  destruct (add_or_replace_style_tag _ _ root) as [root1|] eqn:E; simpl;
    [|discriminate].
  intros H. inversion H; subst root'; clear H. split.
  - intros node Hnode Hnid.
    destruct (view_in_map root1 _ _
                (views_update_node (nid elem) "class" anim_id root1) node Hnode)
      as (x0 & _ & Hview).
    unfold view, set_in_view in Hview. injection Hview as H1 H2 H3.
    rewrite <- H1, Hnid, Nat.eqb_refl in H3. rewrite H3. apply get_set_same.
  - intros Hnone. unfold add_or_replace_style_tag in E. rewrite Hnone in E.
    simpl in E. inversion E; subst root1.
    assert (Hn : forall r, map nid (descendants_or_self
                   (update_node (nid elem) (set_attr "class" anim_id) r))
                 = map nid (descendants_or_self r)).
    { intros r.
      pose proof (views_update_node (nid elem) "class" anim_id r) as Hv.
      apply (f_equal (map (fun v => fst (fst v)))) in Hv.
      rewrite !map_map in Hv. cbn in Hv.
      etransitivity; [exact Hv|].
      apply map_ext. intros x. unfold set_in_view, view. reflexivity. }
    rewrite Hn. apply descendants_or_self_SubElement.
Qed.

Lemma X8_animate_path_sets_class_witness :
  exists root',
    animate_path sample_float_repr
      (Element 4 (addNS "path" svg_ns) [("id", "p1"); ("class", "old")] None [])
      (PInt 0) (PFloat 100) (PFloat 3) (PFloat 3) (PInt 0) "anim_0"
      (sample_svg [Element 4 (addNS "path" svg_ns) [("id", "p1"); ("class", "old")] None []])
    = Ok root'
    /\ map nid (descendants_or_self root') = [0; 4; 5]%nat
    /\ forall node, node ∈ descendants_or_self root' -> nid node = 4%nat ->
                    get "class" (attrib node) = Some "anim_0".
Proof.
  eexists. split; [reflexivity|].
  match goal with |- (map nid (descendants_or_self ?r) = _) /\ _ =>
    destruct (X8_animate_path_sets_class sample_float_repr
      (Element 4 (addNS "path" svg_ns) [("id", "p1"); ("class", "old")] None [])
      (PInt 0) (PFloat 100) (PFloat 3) (PFloat 3) (PInt 0) "anim_0"
      (sample_svg [Element 4 (addNS "path" svg_ns) [("id", "p1"); ("class", "old")] None []])
      r eq_refl) as [Hclass Hnids]
  end.
  split; [apply Hnids; reflexivity|exact Hclass].
Defined.

(** ** Visibility in the written copy *)

Lemma restyled_cons (visible : gset string) (l : element) (ls : list element)
    (m : nat) (attrs : list (string * string)) :
  restyled visible (l :: ls) m attrs
  = restyled visible ls m
      (if Nat.eqb m (nid l)
       then set "style"
              (display (bool_decide (default "" (get "id" (attrib l)) ∈ visible)))
              attrs
       else attrs).
Proof. reflexivity. Qed.

Lemma get_restyled_other (visible : gset string) (layers : list element)
    (m : nat) (key : string) :
  key <> "style" ->
  forall attrs, get key (restyled visible layers m attrs) = get key attrs.
Proof.
  intros Hkey. induction layers as [|l ls IH]; intros attrs; [reflexivity|].
  rewrite restyled_cons, IH. destruct (Nat.eqb m (nid l)); [|reflexivity].
  apply get_set_other. congruence.
Qed.

Lemma get_restyled_style (visible : gset string) (m : nat) (value : string)
    (layers : list element) :
  Forall (fun l => nid l = m ->
            display (bool_decide (default "" (get "id" (attrib l)) ∈ visible))
            = value) layers ->
  forall attrs,
    get "style" attrs = Some value \/ Exists (fun l => nid l = m) layers ->
    get "style" (restyled visible layers m attrs) = Some value.
Proof.
  induction 1 as [|l ls Hl _ IH]; intros attrs Hor.
  - destruct Hor as [H|H]; [exact H|inversion H].
  - rewrite restyled_cons. apply IH.
    destruct (Nat.eqb_spec m (nid l)) as [E|E].
    + left. rewrite (Hl (eq_sym E)). apply get_set_same.
    + destruct Hor as [H|H]; [now left|].
      inversion H; subst; [congruence|now right].
Qed.

Lemma export_loop_views (visible : gset string) (layers : list element) :
  forall doc copy,
    for_each
      (fun layer copy =>
         match get "id" (attrib layer) with
         | Some i =>
             Ok (update_node (nid layer)
                   (set_attr "style" (display (bool_decide (i ∈ visible))))
                   copy)
         | None => Raise KeyError
         end)
      layers doc = Ok copy ->
    map view (descendants_or_self copy)
    = map (restyle_view visible layers) (map view (descendants_or_self doc)).
Proof.
  induction layers as [|l ls IH]; intros doc copy Hrun.
  - cbn in Hrun. inversion Hrun; subst copy.
    rewrite <- (map_id (map view (descendants_or_self doc))) at 1.
    apply map_ext. now intros [[m t] a].
  - cbn [for_each] in Hrun.
    destruct (get "id" (attrib l)) as [i|] eqn:Ei; simpl in Hrun; [|discriminate].
    rewrite (IH _ _ Hrun), views_update_node, !map_map.
    apply map_ext. intros x. unfold view, set_in_view, restyle_view.
    rewrite restyled_cons, Ei. cbn [default]. reflexivity.
Qed.

Lemma nid_injective (xs : list element) (a b : element) :
  NoDup (map nid xs) -> In a xs -> In b xs -> nid a = nid b -> a = b.
Proof.
  induction xs as [|x xs IH]; intros Hnd Ha Hb Hab; [contradiction|].
  cbn [map] in Hnd. apply NoDup_cons in Hnd. destruct Hnd as [Hx Hnd].
  destruct Ha as [->|Ha], Hb as [->|Hb]; auto.
  - exfalso. apply Hx. rewrite Hab. apply list_elem_of_In. now apply in_map.
  - exfalso. apply Hx. rewrite <- Hab. apply list_elem_of_In. now apply in_map.
Qed.

(** X9. [export_to_svg] leaves the live document as it is and writes one
    file; when the elements of the document are distinct objects, every
    layer group of the written copy that has an id is styled
    [display:inline] if its id is visible in the step and [display:none]
    if it is not. *)
Theorem X9_written_copy_visibility (export_item : Export) (r r' : run) :
  export_to_svg export_item r = Ok r' ->
  NoDup (map nid (descendants_or_self (document r))) ->
  document r' = document r
  /\ exists copy,
       written r' = written r ++ [((file_name export_item ++ ".svg")%string, copy)]
       /\ forall layer i,
            layer ∈ xpath_layers copy ->
            get "id" (attrib layer) = Some i ->
            get "style" (attrib layer)
            = Some (if bool_decide (i ∈ visible_layers export_item)
                    then "display:inline" else "display:none").
Proof.
  unfold export_to_svg. intros Hrun Hnd.
  destruct (for_each _ (xpath_layers (document r)) (document r)) as [copy|] eqn:E;
    simpl in Hrun; [|discriminate].
  inversion Hrun; subst r'; clear Hrun. cbn [document written].
  split; [reflexivity|]. exists copy. split; [reflexivity|].
  intros layer i Hlayer Hid.
  apply export_loop_views in E.
  apply list_elem_of_filter in Hlayer. destruct Hlayer as [[Htag Hmode] Hin].
  destruct (view_in_map (document r) copy _ E layer Hin) as (x0 & Hx0 & Hview).
  unfold view, restyle_view in Hview. injection Hview as Hn Ht Ha.
  rewrite Ha in Hid, Hmode |- *.
  rewrite get_restyled_other in Hid by discriminate.
  rewrite get_restyled_other in Hmode by discriminate.
  assert (Hx0L : x0 ∈ xpath_layers (document r)).
  { apply list_elem_of_filter. split; [|exact Hx0]. split; congruence. }
  apply (get_restyled_style _ _
           (display (bool_decide (i ∈ visible_layers export_item)))).
  - apply List.Forall_forall. intros l Hl Hnid.
    assert (l = x0).
    { apply (nid_injective (descendants_or_self (document r))); auto.
      - apply list_elem_of_In in Hl. apply list_elem_of_filter in Hl.
        apply list_elem_of_In. tauto.
      - now apply list_elem_of_In. }
    subst l. now rewrite Hid.
  - right. apply List.Exists_exists. exists x0.
    split; [now apply list_elem_of_In|reflexivity].
Qed.

Lemma X9_written_copy_visibility_witness :
  let item := export_of false sample_layers 0 {| id := "L1"; label := "bg" |} in
  exists copy,
    written (value_or (empty_run two_layer_document)
               (export_to_svg item (empty_run two_layer_document)))
    = [("bg.svg", copy)]
    /\ map (fun l => (get "id" (attrib l), get "style" (attrib l))) (xpath_layers copy)
       = [(Some "L2", Some "display:none"); (Some "L1", Some "display:inline")].
Proof.
  intros item.
  destruct (X9_written_copy_visibility item (empty_run two_layer_document)
              (value_or (empty_run two_layer_document)
                 (export_to_svg item (empty_run two_layer_document)))
              eq_refl) as (_ & copy & Hwritten & _).
  - apply (bool_decide_unpack _). vm_compute. exact I.
  - exists copy. split; [exact Hwritten|].
    cbn in Hwritten. injection Hwritten as <-. reflexivity.
Defined.

(** ** The files of a run *)







(** ** Replacing a parsed rule *)

Lemma filter_nid_split (old : element) (pre post : list element) :
  NoDup (map nid (pre ++ old :: post)) ->
  filter (fun c => nid c <> nid old) (pre ++ old :: post) = pre ++ post.
Proof.
  intros Hnd.
  assert (Hother : forall c, In c (pre ++ post) -> nid c <> nid old).
  { intros c Hc Heq. rewrite map_app in Hnd. cbn [map] in Hnd.
    apply NoDup_app in Hnd. destruct Hnd as (_ & Hdisj & Hnd2).
    apply NoDup_cons in Hnd2. destruct Hnd2 as [Hnot _].
    apply in_app_or in Hc. destruct Hc as [Hc|Hc].
    - apply (Hdisj (nid c)).
      + apply list_elem_of_In. now apply in_map.
      + rewrite Heq. apply elem_of_cons. now left.
    - apply Hnot. rewrite <- Heq. apply list_elem_of_In. now apply in_map. }
  rewrite filter_app, filter_cons.
  destruct (decide (nid old <> nid old)) as [H|_]; [congruence|].
  rewrite !filter_all; [reflexivity| |];
    apply List.Forall_forall; intros c Hc; apply Hother, in_or_app; auto.
Qed.

(** X11. When the first [svg:style] element with the given id is a child
    of the root, and the children of the root are distinct objects, the
    upsert succeeds: that child is taken out, the other children keep
    their places, and the new rule comes last. *)
Theorem X11_upsert_replaces_parsed_rule (tag_id content : string)
    (root old : element) (pre post : list element) :
  find (fun t => bool_decide (get "id" (attrib t) = Some tag_id))
       (xpath_styles root) = Some old ->
  children root = pre ++ old :: post ->
  NoDup (map nid (children root)) ->
  exists root' n,
    add_or_replace_style_tag tag_id content root = Ok root'
    /\ children root'
       = pre ++ post ++ [Element n "style" [("id", tag_id)] (Some content) []]
    /\ tag old = addNS "style" svg_ns
    /\ get "id" (attrib old) = Some tag_id.
Proof.
  intros Hfind Hchildren Hnd.
  pose proof Hfind as Hold. apply find_some in Hold. destruct Hold as [Hin Hid].
  apply list_elem_of_In, list_elem_of_filter in Hin. destruct Hin as [Htag _].
  apply bool_decide_eq_true in Hid.
  unfold add_or_replace_style_tag. rewrite Hfind. simpl. unfold remove.
  assert (Hex : existsb (fun c => Nat.eqb (nid c) (nid old)) (children root) = true).
  { apply existsb_exists. exists old. split; [|apply Nat.eqb_refl].
    rewrite Hchildren. apply in_or_app. right. now left. }
  rewrite Hex. simpl. eexists _, _. split; [reflexivity|].
  cbn [children SubElement]. rewrite Hchildren in Hnd |- *.
  rewrite filter_nid_split by exact Hnd.
  rewrite <- app_assoc. auto.
Qed.

Lemma X11_upsert_replaces_parsed_rule_witness :
  exists root' n,
    add_or_replace_style_tag "X" "b"
      (sample_svg [sample_path 1 "p";
                   Element 2 (addNS "style" svg_ns) [("id", "X")] (Some "a") [];
                   sample_path 3 "q"])
    = Ok root'
    /\ children root'
       = [sample_path 1 "p"] ++ [sample_path 3 "q"]
         ++ [Element n "style" [("id", "X")] (Some "b") []].
Proof.
  destruct (X11_upsert_replaces_parsed_rule "X" "b"
              (sample_svg [sample_path 1 "p";
                           Element 2 (addNS "style" svg_ns) [("id", "X")] (Some "a") [];
                           sample_path 3 "q"])
              (Element 2 (addNS "style" svg_ns) [("id", "X")] (Some "a") [])
              [sample_path 1 "p"] [sample_path 3 "q"] eq_refl eq_refl)
    as (root' & n & Hrun & Hchildren & _).
  - apply (bool_decide_unpack _). vm_compute. exact I.
  - exists root', n. split; assumption.
Defined.

(** ** The animation of a layer, path by path *)

Lemma timeline_loop_as_for_each (float_repr : Q -> string)
    (segment_lengths : element -> list (list Q))
    (to_animate : list element) (anim_id : string) (total : pynum) :
  ~ (val total == 0)%Q ->
  forall elems index e root,
    (forall j, elems !! j = to_animate !! (index + j)%nat) ->
    timeline_loop
      (fun index start_percent end_percent length root =>
         match to_animate !! index with
         | Some elem =>
             animate_path float_repr elem start_percent end_percent length
               length (PInt 0) anim_id root
         | None => Raise IndexError
         end)
      total index (map (get_animatable_length segment_lengths) elems) e root
    = for_each
        (fun '(elem, (start_percent, end_percent)) =>
           animate_path float_repr elem start_percent end_percent
             (get_animatable_length segment_lengths elem)
             (get_animatable_length segment_lengths elem) (PInt 0) anim_id)
        (combine elems
           (pairs total e (map (get_animatable_length segment_lengths) elems)))
        root.
Proof.
  intros HT. induction elems as [|x xs IH]; intros index e root Hsuffix;
    [reflexivity|].
  cbn [map timeline_loop pairs combine for_each].
  rewrite truediv_ok by exact HT. simpl.
  fold (next_end total e (get_animatable_length segment_lengths x)).
  pose proof (Hsuffix 0%nat) as H0. rewrite Nat.add_0_r in H0.
  cbn in H0. rewrite <- H0.
  destruct (animate_path _ x _ _ _ _ _ _ root) as [root1|]; simpl; [|reflexivity].
  apply IH. intros j. rewrite Nat.add_succ_comm.
  exact (Hsuffix (Datatypes.S j)).
Qed.

(** X12. On the path elements of a layer whose total length is not
    zero, [add_animation] runs [animate_path] once per path, in document
    order, each with its pair of the allocation and its own length, and
    then adds the shared rule of the step; it sends no message and writes
    no file. *)
Theorem X12_add_animation_as_allocation
    (animation_style : string) (segment_lengths : element -> list (list Q))
    (float_repr : Q -> string) (to_animate : list element) (anim_id : string)
    (r : run) :
  let lengths := map (get_animatable_length segment_lengths) to_animate in
  Forall (fun e => tag e = addNS "path" svg_ns) to_animate ->
  to_animate <> [] ->
  ~ (val (sum lengths) == 0)%Q ->
  exists alloc,
    allocation lengths = Ok alloc
    /\ length alloc = length to_animate
    /\ add_animation animation_style segment_lengths float_repr to_animate
         anim_id r
       = (do root <-
            for_each
              (fun '(elem, (start_percent, end_percent)) =>
                 animate_path float_repr elem start_percent end_percent
                   (get_animatable_length segment_lengths elem)
                   (get_animatable_length segment_lengths elem) (PInt 0) anim_id)
              (combine to_animate alloc) (document r);
          do root <- add_or_replace_style_tag anim_id
                       (animation_style_content animation_style anim_id) root;
          Ok {| document := root; messages := messages r; written := written r |}).
Proof.
  intros lengths Htag Hne HT.
  exists (pairs (sum lengths) (PInt 0) lengths). split; [|split].
  - unfold allocation. now rewrite timeline_loop_record.
  - unfold lengths. now rewrite pairs_length, length_map.
  - unfold add_animation. rewrite (filter_all _ _ Htag). fold lengths.
    assert (Hmatch : forall (A : Type) (a b : A),
              match lengths with [] => a | _ :: _ => b end = b).
    { intros A a b. unfold lengths.
      destruct to_animate; [contradiction|reflexivity]. }
    rewrite Hmatch. unfold lengths at 2.
    rewrite (timeline_loop_as_for_each float_repr segment_lengths to_animate
               anim_id (sum lengths) HT to_animate 0 (PInt 0) (document r));
      [reflexivity|].
    intros j. reflexivity.
Qed.

Lemma X12_add_animation_as_allocation_witness :
  exists alloc,
    allocation (map (get_animatable_length two_segment_geometry)
                  [sample_path 2 "p2"; sample_path 4 "p1"]) = Ok alloc
    /\ length alloc = 2%nat.
Proof.
  destruct (X12_add_animation_as_allocation "ease" two_segment_geometry
              sample_float_repr [sample_path 2 "p2"; sample_path 4 "p1"]
              "anim_0" (empty_run two_layer_document))
    as (alloc & Halloc & Hlen & _).
  - repeat constructor.
  - discriminate.
  - discriminate.
  - exists alloc. split; assumption.
Defined.

(** ** Nothing to export *)

(** X13. On a document without layer groups, and on a document with a
    single layer group when the background is not included, [effect]
    succeeds without touching the document or writing a file, and reports
    zero export layers. *)
Theorem X13_effect_nothing_to_export
    (include_background enumerate_option : bool) (animation_style : string)
    (segment_lengths : element -> list (list Q)) (float_repr : Q -> string)
    (set_iteration : gset string -> list string) (doc : element) :
  xpath_layers doc = []
  \/ (include_background = false
      /\ exists layer, xpath_layers doc = [layer] /\ has_id layer) ->
  effect include_background enumerate_option animation_style segment_lengths
    float_repr set_iteration doc
  = Ok {| document := doc;
          messages := ["Processed 0 export layers."];
          written := [] |}.
Proof.
  intros [Hnone|(-> & layer & Hone & [i Hi])]; unfold effect, get_layer_list.
  - rewrite Hnone. cbn. now destruct include_background.
  - rewrite Hone. cbn [rev app comprehension]. rewrite Hi. reflexivity.
Qed.

Lemma X13_effect_nothing_to_export_witness :
  effect false true "ease" two_segment_geometry sample_float_repr
    ascending_iteration (sample_svg [sample_layer 1 "L1" "Bg" [sample_path 2 "p"]])
  = Ok {| document := sample_svg [sample_layer 1 "L1" "Bg" [sample_path 2 "p"]];
          messages := ["Processed 0 export layers."];
          written := [] |}.
Proof.
  apply (X13_effect_nothing_to_export false true "ease" two_segment_geometry
           sample_float_repr ascending_iteration
           (sample_svg [sample_layer 1 "L1" "Bg" [sample_path 2 "p"]])).
  right. split; [reflexivity|].
  exists (sample_layer 1 "L1" "Bg" [sample_path 2 "p"]).
  split; [reflexivity|]. exists "L1". reflexivity.
Defined.

(** ** Visibility in the live document *)

Lemma find_map_preserved {A : Type} (p : A -> bool) (f : A -> A) (xs : list A) :
  (forall x, p (f x) = p x) ->
  find p (map f xs) = option_map f (find p xs).
Proof.
  intros Hp. induction xs as [|x xs IH]; [reflexivity|].
  cbn [map find]. rewrite Hp. destruct (p x); [reflexivity|exact IH].
Qed.

Lemma getElementById_view (eid : string) (root : element) :
  option_map view (getElementById eid root)
  = first_with_id eid (map view (descendants_or_self root)).
Proof.
  unfold getElementById, first_with_id.
  induction (descendants_or_self root) as [|x xs IH]; [reflexivity|].
  cbn [map find]. unfold view at 2. cbn [snd].
  destruct (bool_decide (get "id" (attrib x) = Some eid)); [reflexivity|exact IH].
Qed.

Lemma first_with_id_set_style (n : nat) (value eid : string)
    (views : list (nat * string * list (string * string))) :
  first_with_id eid (map (set_in_view n "style" value) views)
  = option_map (set_in_view n "style" value) (first_with_id eid views).
Proof.
  unfold first_with_id. apply find_map_preserved.
  intros [[m t] a]. unfold set_in_view. cbn [snd].
  destruct (Nat.eqb m n); [|reflexivity].
  now rewrite get_set_other by discriminate.
Qed.

Lemma view_nid_injective (views : list (nat * string * list (string * string)))
    (v w : nat * string * list (string * string)) :
  NoDup (map (fun x => fst (fst x)) views) ->
  In v views -> In w views -> fst (fst v) = fst (fst w) -> v = w.
Proof.
  induction views as [|x xs IH]; intros Hnd Hv Hw Heq; [contradiction|].
  cbn [map] in Hnd. apply NoDup_cons in Hnd. destruct Hnd as [Hx Hnd].
  destruct Hv as [->|Hv], Hw as [->|Hw]; auto.
  - exfalso. apply Hx. rewrite Heq. apply list_elem_of_In.
    now apply (in_map (fun x => fst (fst x))).
  - exfalso. apply Hx. rewrite <- Heq. apply list_elem_of_In.
    now apply (in_map (fun x => fst (fst x))).
Qed.

Lemma styled_by_step (visible : gset string) (done : list Layer) (layer : Layer)
    (views : list (nat * string * list (string * string)))
    (n : nat) (t : string) (a : list (string * string)) :
  NoDup (map (fun x => fst (fst x)) views) ->
  styled_by visible done views ->
  first_with_id (id layer) views = Some (n, t, a) ->
  styled_by visible (done ++ [layer])
    (map (set_in_view n "style" (display (bool_decide (id layer ∈ visible)))) views).
Proof.
  intros Hnd Hdone Hfound. unfold styled_by in *.
  apply Forall_app. split.
  - apply List.Forall_forall. intros l Hl.
    rewrite List.Forall_forall in Hdone. destruct (Hdone l Hl) as (w & Hw & Hstyle).
    rewrite first_with_id_set_style, Hw. cbn [option_map].
    eexists. split; [reflexivity|].
    destruct w as [[m tw] aw]. unfold set_in_view. cbn [snd] in *.
    destruct (Nat.eqb_spec m n) as [->|Hne]; [|exact Hstyle].
    assert (E : (n, tw, aw) = (n, t, a)).
    { apply (view_nid_injective views); auto.
      - unfold first_with_id in Hw. apply find_some in Hw. tauto.
      - unfold first_with_id in Hfound. apply find_some in Hfound. tauto. }
    injection E as -> ->.
    unfold first_with_id in Hw, Hfound.
    apply find_some in Hw. apply find_some in Hfound.
    destruct Hw as [_ Hw], Hfound as [_ Hfound]. cbn [snd] in Hw, Hfound.
    apply bool_decide_eq_true in Hw. apply bool_decide_eq_true in Hfound.
    assert (id l = id layer) as -> by congruence.
    apply get_set_same.
  - repeat constructor.
    rewrite first_with_id_set_style, Hfound. cbn [option_map set_in_view].
    eexists. split; [reflexivity|]. cbn [snd].
    rewrite Nat.eqb_refl. apply get_set_same.
Qed.

Lemma set_layer_styles_styled (export_item : Export) (layer_list : list Layer) :
  forall done root root',
    NoDup (map nid (descendants_or_self root)) ->
    styled_by (visible_layers export_item) done
      (map view (descendants_or_self root)) ->
    set_layer_styles layer_list export_item root = Ok root' ->
    styled_by (visible_layers export_item) (done ++ layer_list)
      (map view (descendants_or_self root')).
Proof.
  unfold set_layer_styles.
  induction layer_list as [|layer ls IH]; intros done root root' Hnd Hdone Hrun.
  - cbn in Hrun. inversion Hrun; subst. now rewrite app_nil_r.
  - cbn [for_each] in Hrun.
    destruct (getElementById (id layer) root) as [tg|] eqn:Eg; simpl in Hrun;
      [|discriminate].
    pose proof (getElementById_view (id layer) root) as Hv.
    rewrite Eg in Hv. cbn [option_map] in Hv. symmetry in Hv.
    assert (Hnd' : NoDup (map (fun x => fst (fst x))
                            (map view (descendants_or_self root)))).
    { rewrite map_map. exact Hnd. }
    pose proof (styled_by_step _ done layer _ _ _ _ Hnd' Hdone Hv) as Hstep.
    rewrite <- views_update_node in Hstep.
    replace (done ++ layer :: ls) with ((done ++ [layer]) ++ ls)
      by (now rewrite <- app_assoc).
    eapply IH; [|exact Hstep|exact Hrun].
    assert (Hn : map nid (descendants_or_self
                   (update_node (nid tg)
                      (set_attr "style"
                         (display (bool_decide (id layer ∈ visible_layers export_item))))
                      root))
                 = map nid (descendants_or_self root)).
    { pose proof (views_update_node (nid tg) "style"
                    (display (bool_decide (id layer ∈ visible_layers export_item)))
                    root) as Hviews.
      apply (f_equal (map (fun v => fst (fst v)))) in Hviews.
      rewrite !map_map in Hviews. cbn in Hviews.
      etransitivity; [exact Hviews|].
      apply map_ext. intros x. unfold set_in_view, view. reflexivity. }
    now rewrite Hn.
Qed.

(** X14. When the elements of the live document are distinct objects and
    the inner loop of [effect] succeeds, every layer of the list is found
    by its id afterwards, styled [display:inline] if the step shows it and
    [display:none] if it does not; the loop fails, with [AttributeError],
    only when no element carries the id of a layer. *)
Theorem X14_live_layer_styles (layer_list : list Layer) (export_item : Export)
    (root : element) :
  NoDup (map nid (descendants_or_self root)) ->
  (forall root',
     set_layer_styles layer_list export_item root = Ok root' ->
     forall layer, layer ∈ layer_list ->
       exists layer_tag,
         getElementById (id layer) root' = Some layer_tag
         /\ get "id" (attrib layer_tag) = Some (id layer)
         /\ get "style" (attrib layer_tag)
            = Some (if bool_decide (id layer ∈ visible_layers export_item)
                    then "display:inline" else "display:none"))
  /\ (forall e, set_layer_styles layer_list export_item root = Raise e ->
                e = AttributeError).
Proof.
  intros Hnd. split.
  - intros root' Hrun layer Hlayer.
    pose proof (set_layer_styles_styled export_item layer_list [] root root' Hnd
                  (List.Forall_nil _) Hrun) as Hall.
    cbn [app] in Hall. unfold styled_by in Hall.
    rewrite List.Forall_forall in Hall.
    destruct (Hall layer (proj1 (list_elem_of_In _ _) Hlayer)) as (w & Hw & Hstyle).
    rewrite <- getElementById_view in Hw.
    destruct (getElementById (id layer) root') as [tg|] eqn:Eg; [|discriminate].
    cbn [option_map] in Hw. injection Hw as <-.
    exists tg. split; [reflexivity|]. split; [|exact Hstyle].
    unfold getElementById in Eg. apply find_some in Eg.
    destruct Eg as [_ Eg]. now apply bool_decide_eq_true in Eg.
  - unfold set_layer_styles. generalize root. clear Hnd.
    induction layer_list as [|layer ls IH]; intros root0 e Hrun; [discriminate|].
    cbn [for_each] in Hrun.
    destruct (getElementById (id layer) root0); simpl in Hrun.
    + eapply IH. exact Hrun.
    + now inversion Hrun.
Qed.

Lemma X14_live_layer_styles_witness :
  let item := export_of false sample_layers 0 {| id := "L1"; label := "bg" |} in
  exists layer_tag,
    getElementById "L2"
      (value_or two_layer_document
         (set_layer_styles sample_layers item two_layer_document))
    = Some layer_tag
    /\ get "style" (attrib layer_tag) = Some "display:none".
Proof.
  intros item.
  assert (Hnd : NoDup (map nid (descendants_or_self two_layer_document))).
  { apply (bool_decide_unpack _). vm_compute. exact I. }
  destruct (X14_live_layer_styles sample_layers item two_layer_document Hnd)
    as [Hok _].
  destruct (Hok (value_or two_layer_document
                   (set_layer_styles sample_layers item two_layer_document))
              eq_refl {| id := "L2"; label := "sky" |})
    as (tg & Hget & _ & Hstyle).
  - apply elem_of_cons. right. apply elem_of_cons. now left.
  - exists tg. split; [exact Hget|exact Hstyle].
Defined.
